(** * View-state synchronisation of the portfolio script (script.js)

    A shallow embedding of the event handlers of [script.js]: the scroll
    handler that derives the active navigation link, the mobile-menu
    handlers, the intersection-observer callbacks of the scroll animations
    and the contact form (validators, error display, submit handler).

    DOM elements are records holding exactly the attributes, classes and
    style properties the handlers read or write; a handler is a function on
    such records.  JavaScript strings that the code measures or matches
    (field values) are lists of UTF-16 code units. *)

From Stdlib Require Import ZArith QArith Qround NArith Ascii String List Bool Lia Sorted.
From stdpp Require Import base decidable option list strings gmap.

#[local] Set Warnings "-clear-no-such-hyp".
Local Open Scope Z_scope.

(* ================================================================== *)
(** * Part I: the embedding                                            *)
(* ================================================================== *)

(** ** JavaScript strings, [String.prototype.trim], [RegExp.prototype.test] *)

Module JS.

(** A UTF-16 code unit; [length] of a string counts code units. *)
Definition code_unit : Type := N.
Definition jsstring : Type := list code_unit.

(** An ASCII literal of the source as a list of code units. *)
Definition lit (s : string) : jsstring :=
  N_of_ascii <$> list_ascii_of_string s.

(** ECMAScript WhiteSpace and LineTerminator code points: what [trim]
    strips and what [\s] matches. *)
Definition isWhiteSpace (c : code_unit) : bool :=
  ((9 <=? c) && (c <=? 13)            (* TAB LF VT FF CR *)
   || (c =? 32) || (c =? 160)         (* SP NBSP *)
   || (c =? 5760)                     (* U+1680 *)
   || ((8192 <=? c) && (c <=? 8202))  (* U+2000 .. U+200A *)
   || (c =? 8232) || (c =? 8233)      (* LS PS *)
   || (c =? 8239) || (c =? 8287)      (* U+202F U+205F *)
   || (c =? 12288) || (c =? 65279))%N (* U+3000 U+FEFF *).

Fixpoint trimStart (s : jsstring) : jsstring :=
  match s with
  | c :: s' => if isWhiteSpace c then trimStart s' else s
  | [] => []
  end.

Definition trimEnd (s : jsstring) : jsstring := rev (trimStart (rev s)).

Definition trim (s : jsstring) : jsstring := trimEnd (trimStart s).

(** Regular expressions over code units, as far as the source's literal
    needs them: character classes, concatenation, [+].  [Void], [Eps] and
    [Alt] are there for the derivatives. *)
Inductive regex : Type :=
| Void
| Eps
| Class (p : code_unit -> bool)
| Alt (r1 r2 : regex)
| Seq (r1 r2 : regex)
| Star (r : regex).

Definition Plus (r : regex) : regex := Seq r (Star r).
Definition Chr (c : code_unit) : regex := Class (N.eqb c).

(** The language of a regular expression. *)
Inductive Matches : regex -> jsstring -> Prop :=
| MEps : Matches Eps []
| MClass p c : p c = true -> Matches (Class p) [c]
| MAltL r1 r2 s : Matches r1 s -> Matches (Alt r1 r2) s
| MAltR r1 r2 s : Matches r2 s -> Matches (Alt r1 r2) s
| MSeq r1 r2 s1 s2 : Matches r1 s1 -> Matches r2 s2 -> Matches (Seq r1 r2) (s1 ++ s2)
| MStarNil r : Matches (Star r) []
| MStarCons r s1 s2 : Matches r s1 -> Matches (Star r) s2 -> Matches (Star r) (s1 ++ s2).

Fixpoint nullable (r : regex) : bool :=
  match r with
  | Void => false
  | Eps => true
  | Class _ => false
  | Alt r1 r2 => nullable r1 || nullable r2
  | Seq r1 r2 => nullable r1 && nullable r2
  | Star _ => true
  end.

Fixpoint deriv (c : code_unit) (r : regex) : regex :=
  match r with
  | Void => Void
  | Eps => Void
  | Class p => if p c then Eps else Void
  | Alt r1 r2 => Alt (deriv c r1) (deriv c r2)
  | Seq r1 r2 =>
      if nullable r1
      then Alt (Seq (deriv c r1) r2) (deriv c r2)
      else Seq (deriv c r1) r2
  | Star r' => Seq (deriv c r') (Star r')
  end.

(** [/^r$/.test(s)]: without the [m] flag the anchors pin the match to
    the whole string, and without [g] or [y] the call keeps no state. *)
Definition test (r : regex) (s : jsstring) : bool :=
  nullable (fold_left (fun r c => deriv c r) s r).

End JS.

(** ** Navigation: active link and mobile menu *)

Module Navigation.

(** A [section[id]] element: its [id] attribute and layout boxes. *)
Record SectionEl : Type := {
  sec_id : string;
  offsetTop : Z;
  clientHeight : Z
}.

(** A [.nav-link] element: its [href] attribute ([None] when the
    attribute is absent, [getAttribute] then gives [null]) and whether
    its class list holds [active]. *)
Record LinkEl : Type := {
  href : option string;
  link_active : bool
}.

(** [window.scrollY >= sectionTop - 200]; the scroll offset is a
    fractional number of pixels, the layout offsets are integers. *)
Definition crossed (scrollY : Q) (s : SectionEl) : bool :=
  Qle_bool (inject_Z (offsetTop s - 200)) scrollY.

(** The [sections.forEach] loop of [setupActiveLinks], from [current = '']. *)
Definition scanSections (scrollY : Q) (sections : list SectionEl) : string :=
  fold_left
    (fun current s => if crossed scrollY s then sec_id s else current)
    sections ""%string.

(** The [navLinks.forEach] loop: every link loses [active], and gets it
    back when its [href] is [#] followed by [current]. *)
Definition markLink (current : string) (l : LinkEl) : LinkEl :=
  {| href := href l;
     link_active := bool_decide (href l = Some ("#" +:+ current)) |}.

Definition markLinks (current : string) (links : list LinkEl) : list LinkEl :=
  markLink current <$> links.

(** The throttled callback of [setupActiveLinks], when it runs. *)
Definition handleScroll (scrollY : Q) (sections : list SectionEl)
    (links : list LinkEl) : string * list LinkEl :=
  let current := scanSections scrollY sections in
  (current, markLinks current links).

(** The toggle button's [aria-expanded] attribute ([None]: absent), the
    [active] class of the menu, and whether a listener has called
    [navToggle.focus()]: the call is recorded, not where the focus is
    afterwards (the call moves the focus only if the toggle can take it). *)
Record Menu : Type := {
  ariaExpanded : option string;
  menuActive : bool;
  toggleFocusCalled : bool
}.

(** [setAttribute] stringifies its boolean argument. *)
Definition string_of_bool (b : bool) : string :=
  if b then "true"%string else "false"%string.

(** Click listener of the toggle button. *)
Definition onToggleClick (m : Menu) : Menu :=
  let isExpanded := bool_decide (ariaExpanded m = Some "true"%string) in
  {| ariaExpanded := Some (string_of_bool (negb isExpanded));
     menuActive := negb (menuActive m);
     toggleFocusCalled := toggleFocusCalled m |}.

(** Click listener of every nav link. *)
Definition onLinkClick (m : Menu) : Menu :=
  {| ariaExpanded := Some "false"%string;
     menuActive := false;
     toggleFocusCalled := toggleFocusCalled m |}.

(** Click listener of the document; [navContainsTarget] is
    [this.nav.contains(e.target)]. *)
Definition onDocumentClick (navContainsTarget : bool) (m : Menu) : Menu :=
  if negb navContainsTarget
  then {| ariaExpanded := Some "false"%string;
          menuActive := false;
          toggleFocusCalled := toggleFocusCalled m |}
  else m.

(** Keydown listener of the document
    ([AccessibilityEnhancements.setupKeyboardNavigation]). *)
Definition onKeyDown (key : string) (m : Menu) : Menu :=
  if bool_decide (key = "Escape"%string)
  then if menuActive m
       then {| ariaExpanded := Some "false"%string;
               menuActive := false;
               toggleFocusCalled := true |}
       else m
  else m.

(** The listeners a click can reach on its way up to the document. *)
Inductive ClickListener : Type := ToggleListener | LinkListener.

Definition runListener (l : ClickListener) (m : Menu) : Menu :=
  match l with
  | ToggleListener => onToggleClick m
  | LinkListener => onLinkClick m
  end.

(** A user event.  A click bubbles: it runs the listeners of the toggle
    and of the links that lie on its propagation path, in path order, and
    then the document's listener (no listener stops propagation). *)
Inductive Event : Type :=
| Click (path : list ClickListener) (navContainsTarget : bool)
| KeyDown (key : string).

Definition toggleClick (inNav : bool) : Event := Click [ToggleListener] inNav.
Definition linkClick (inNav : bool) : Event := Click [LinkListener] inNav.
Definition outsideClick : Event := Click [] false.
Definition escapeKey : Event := KeyDown "Escape".

Definition step (m : Menu) (e : Event) : Menu :=
  match e with
  | Click path inNav =>
      onDocumentClick inNav (fold_left (fun m l => runListener l m) path m)
  | KeyDown key => onKeyDown key m
  end.

Definition run (m : Menu) (es : list Event) : Menu := fold_left step es m.

(** A closed menu, as the markup has it on load. *)
Definition closedMenu : Menu :=
  {| ariaExpanded := Some "false"%string; menuActive := false; toggleFocusCalled := false |}.

(** The attribute mirrors the class. *)
Definition inSync (m : Menu) : Prop :=
  ariaExpanded m = Some "true"%string <-> menuActive m = true.

End Navigation.

(** ** ScrollAnimations: reveal on intersection, one-shot skill bars *)

Module ScrollAnimations.

(** Elements are named by a handle. *)
Definition elem : Type := nat.

(** An [IntersectionObserverEntry], as far as the callbacks read it. *)
Record Entry : Type := {
  target : elem;
  isIntersecting : bool
}.

(** The inline style properties [setupIntersectionObserver] writes. *)
Record Style : Type := {
  opacity : string;
  transform : string;
  transition : string
}.

Definition noStyle : Style :=
  {| opacity := ""; transform := ""; transition := "" |}.

(** Inline styles by element; an element that was never written has none. *)
Definition styleOf (styles : gmap elem Style) (e : elem) : Style :=
  default noStyle (styles !! e).

(** The [animatedElements.forEach] loop that hides every [data-animate]
    element before it is observed. *)
Definition hideAll (els : list elem) (styles : gmap elem Style) : gmap elem Style :=
  fold_left
    (fun styles e =>
       <[e := {| opacity := "0";
                 transform := "translateY(20px)";
                 transition := "opacity 0.6s ease, transform 0.6s ease" |}]> styles)
    els styles.

(** The observer callback of [setupIntersectionObserver] on one entry. *)
Definition revealEntry (styles : gmap elem Style) (en : Entry) : gmap elem Style :=
  if isIntersecting en
  then <[target en := {| opacity := "1";
                         transform := "translateY(0)";
                         transition := transition (styleOf styles (target en)) |}]> styles
  else styles.

Definition revealCallback (entries : list Entry) (styles : gmap elem Style)
    : gmap elem Style :=
  fold_left revealEntry entries styles.

Definition Hidden (styles : gmap elem Style) (e : elem) : Prop :=
  opacity (styleOf styles e) = "0"%string
  /\ transform (styleOf styles e) = "translateY(20px)"%string.

Definition Revealed (styles : gmap elem Style) (e : elem) : Prop :=
  opacity (styleOf styles e) = "1"%string
  /\ transform (styleOf styles e) = "translateY(0)"%string.

(** Every notification of the reveal observer, in order. *)
Definition revealRun (styles : gmap elem Style) (batches : list (list Entry))
    : gmap elem Style :=
  fold_left (fun styles b => revealCallback b styles) batches styles.

(** A [.skill-progress] element: its [data-progress] attribute ([None]
    when absent), the custom property [--progress-width] and the
    [animated] class. *)
Record Bar : Type := {
  dataProgress : option string;
  progressWidth : option string;
  animated : bool
}.

Definition noBar : Bar :=
  {| dataProgress := None; progressWidth := None; animated := false |}.

(** The skill bars and the observation targets of their observer. *)
Record Skills : Type := {
  bars : gmap elem Bar;
  observed : gset elem
}.

Definition barOf (s : Skills) (e : elem) : Bar := default noBar (bars s !! e).

(** The template literal [`${progress}%`]; [null] prints as [null]. *)
Definition percent (progress : option string) : string :=
  (default "null" progress +:+ "%")%string.

(** [skillBars.forEach(bar => observer.observe(bar))]. *)
Definition observeAll (els : list elem) (s : Skills) : Skills :=
  {| bars := bars s; observed := list_to_set els ∪ observed s |}.

(** [setProperty('--progress-width', `${progress}%`)] and
    [classList.add('animated')] on a bar. *)
Definition animatedBar (b : Bar) : Bar :=
  {| dataProgress := dataProgress b;
     progressWidth := Some (percent (dataProgress b));
     animated := true |}.

(** The observer callback of [animateSkillBars] on one entry. *)
Definition animateEntry (s : Skills) (en : Entry) : Skills :=
  if isIntersecting en
  then
    {| bars := <[target en := animatedBar (barOf s (target en))]> (bars s);
       observed := observed s ∖ {[target en]} |}
  else s.

Definition skillCallback (entries : list Entry) (s : Skills) : Skills :=
  fold_left animateEntry entries s.

(** The targets for which the callback takes its animating branch. *)
Definition animatedBy (entries : list Entry) : list elem :=
  target <$> filter (fun en => isIntersecting en = true) entries.

(** What the browser hands to the callback: an observer reports only
    its current observation targets. *)
Definition reported (s : Skills) (batch : list Entry) : list Entry :=
  filter (fun en => target en ∈ observed s) batch.

(** One notification of the skill-bar observer. *)
Definition notify (s : Skills) (batch : list Entry) : Skills :=
  skillCallback (reported s batch) s.

Definition skillRun (s : Skills) (batches : list (list Entry)) : Skills :=
  fold_left notify batches s.

(** Per notification, the elements whose animation it fires. *)
Fixpoint firings (s : Skills) (batches : list (list Entry)) : list (list elem) :=
  match batches with
  | [] => []
  | b :: bs => animatedBy (reported s b) :: firings (notify s b) bs
  end.

(** In how many notifications the animation of [e] fires. *)
Definition fireCount (e : elem) (s : Skills) (batches : list (list Entry)) : nat :=
  length (filter (fun fired => e ∈ fired) (firings s batches)).

Definition Pending (s : Skills) (e : elem) : Prop := animated (barOf s e) = false.
Definition Animated (s : Skills) (e : elem) : Prop := animated (barOf s e) = true.

(** A page with two skill bars, both observed and not yet animated. *)
Definition pendingBar (progress : string) : Bar :=
  {| dataProgress := Some progress; progressWidth := None; animated := false |}.

Definition twoBars : Skills :=
  observeAll [1%nat; 2%nat]
    {| bars := {[ 1%nat := pendingBar "70"; 2%nat := pendingBar "90" ]};
       observed := ∅ |}.

Definition enters (e : elem) : Entry := {| target := e; isIntersecting := true |}.
Definition leaves (e : elem) : Entry := {| target := e; isIntersecting := false |}.

End ScrollAnimations.

(** ** ContactForm: validators, error display, submit handler *)

Module ContactForm.
Import JS.

Inductive Field : Type := Name | Email | Message.

#[export] Instance Field_eq_dec : EqDecision Field.
Proof. solve_decision. Defined.

(** An input or textarea: its value and the [error] class. *)
Record InputEl : Type := {
  value : jsstring;
  errorClass : bool
}.

(** An error element ([nameError], ...): its text and the [visible] class. *)
Record ErrorEl : Type := {
  textContent : string;
  visible : bool
}.

(** The submit button with the [display] of its label and of its loader. *)
Record ButtonEl : Type := {
  disabled : bool;
  textDisplay : string;
  loaderDisplay : string
}.

Inductive JsError : Type :=
| TypeError (what : string)
| Reason (what : string).

(** The page as the form's handlers see it.  The form, its three inputs,
    their error elements and the submit button with its label and loader
    are taken to exist, as the markup the script is written for has them.
    [formSuccess] is [None]
    when [getElementById] found no such element, otherwise it holds the
    element's [visible] class.  [defaultValue] is what [form.reset()]
    restores.  [awaiting] counts the calls of [handleSubmit] suspended at
    their [await], [hideTimers] the pending five-second timers; [alerts]
    and [consoleErrors] record the calls of [alert] and [console.error]. *)
Record State : Type := {
  nameInput : InputEl;
  emailInput : InputEl;
  messageInput : InputEl;
  nameError : ErrorEl;
  emailError : ErrorEl;
  messageError : ErrorEl;
  formSuccess : option bool;
  submitButton : ButtonEl;
  defaultValue : Field -> jsstring;
  awaiting : nat;
  hideTimers : nat;
  alerts : list string;
  consoleErrors : list JsError
}.

Definition inputOf (f : Field) (st : State) : InputEl :=
  match f with
  | Name => nameInput st
  | Email => emailInput st
  | Message => messageInput st
  end.

Definition errorOf (f : Field) (st : State) : ErrorEl :=
  match f with
  | Name => nameError st
  | Email => emailError st
  | Message => messageError st
  end.

Definition setInputs (n e m : InputEl) (st : State) : State :=
  {| nameInput := n; emailInput := e; messageInput := m;
     nameError := nameError st; emailError := emailError st;
     messageError := messageError st; formSuccess := formSuccess st;
     submitButton := submitButton st; defaultValue := defaultValue st;
     awaiting := awaiting st; hideTimers := hideTimers st;
     alerts := alerts st; consoleErrors := consoleErrors st |}.

Definition setErrors (n e m : ErrorEl) (st : State) : State :=
  {| nameInput := nameInput st; emailInput := emailInput st;
     messageInput := messageInput st;
     nameError := n; emailError := e; messageError := m;
     formSuccess := formSuccess st;
     submitButton := submitButton st; defaultValue := defaultValue st;
     awaiting := awaiting st; hideTimers := hideTimers st;
     alerts := alerts st; consoleErrors := consoleErrors st |}.

Definition setInput (f : Field) (i : InputEl) (st : State) : State :=
  match f with
  | Name => setInputs i (emailInput st) (messageInput st) st
  | Email => setInputs (nameInput st) i (messageInput st) st
  | Message => setInputs (nameInput st) (emailInput st) i st
  end.

Definition setError (f : Field) (e : ErrorEl) (st : State) : State :=
  match f with
  | Name => setErrors e (emailError st) (messageError st) st
  | Email => setErrors (nameError st) e (messageError st) st
  | Message => setErrors (nameError st) (emailError st) e st
  end.

Definition setButton (b : ButtonEl) (st : State) : State :=
  {| nameInput := nameInput st; emailInput := emailInput st;
     messageInput := messageInput st;
     nameError := nameError st; emailError := emailError st;
     messageError := messageError st; formSuccess := formSuccess st;
     submitButton := b; defaultValue := defaultValue st;
     awaiting := awaiting st; hideTimers := hideTimers st;
     alerts := alerts st; consoleErrors := consoleErrors st |}.

(** The remaining components, set together. *)
Definition setRuntime (success : option bool) (aw timers : nat)
    (al : list string) (ce : list JsError) (st : State) : State :=
  {| nameInput := nameInput st; emailInput := emailInput st;
     messageInput := messageInput st;
     nameError := nameError st; emailError := emailError st;
     messageError := messageError st; formSuccess := success;
     submitButton := submitButton st; defaultValue := defaultValue st;
     awaiting := aw; hideTimers := timers;
     alerts := al; consoleErrors := ce |}.

(** [input.classList.remove('error')]. *)
Definition removeErrorClass (f : Field) (st : State) : State :=
  setInput f {| value := value (inputOf f st); errorClass := false |} st.

(** [errorElement.classList.remove('visible')]. *)
Definition removeVisible (f : Field) (st : State) : State :=
  setError f {| textContent := textContent (errorOf f st); visible := false |} st.

(** [showError(input, errorElement, message)]; the callers pass the input
    and the error element of one field. *)
Definition showError (f : Field) (message : string) (st : State) : State :=
  let st := setInput f {| value := value (inputOf f st); errorClass := true |} st in
  setError f {| textContent := message; visible := true |} st.

(** [clearError(input, errorElement)]. *)
Definition clearError (f : Field) (st : State) : State :=
  removeVisible f (removeErrorClass f st).

Definition validateName (st : State) : bool * State :=
  let name := trim (value (nameInput st)) in
  if (length name =? 0)%nat then
    (false, showError Name "Le nom est requis" st)
  else if (length name <? 2)%nat then
    (false, showError Name "Le nom doit contenir au moins 2 caractères" st)
  else
    (true, clearError Name st).

(** [[^\s@]]. *)
Definition notSpaceAt (c : code_unit) : bool :=
  negb (isWhiteSpace c || (c =? 64)%N).

(** [/^[^\s@]+@[^\s@]+\.[^\s@]+$/]. *)
Definition emailRegex : regex :=
  Seq (Plus (Class notSpaceAt))
    (Seq (Chr 64%N)
       (Seq (Plus (Class notSpaceAt))
          (Seq (Chr 46%N) (Plus (Class notSpaceAt))))).

Definition validateEmail (st : State) : bool * State :=
  let email := trim (value (emailInput st)) in
  if (length email =? 0)%nat then
    (false, showError Email "L'email est requis" st)
  else if negb (test emailRegex email) then
    (false, showError Email "Veuillez entrer un email valide" st)
  else
    (true, clearError Email st).

Definition validateMessage (st : State) : bool * State :=
  let message := trim (value (messageInput st)) in
  if (length message =? 0)%nat then
    (false, showError Message "Le message est requis" st)
  else if (length message <? 10)%nat then
    (false, showError Message "Le message doit contenir au moins 10 caractères" st)
  else
    (true, clearError Message st).

Definition validate (f : Field) : State -> bool * State :=
  match f with
  | Name => validateName
  | Email => validateEmail
  | Message => validateMessage
  end.

(** The [input] listener of a field, run after the browser has stored
    the typed text [v] as the field's value.  The element it looks up by
    [`${input.id}Error`] is the field's error element. *)
Definition onInput (f : Field) (v : jsstring) (st : State) : State :=
  let st := setInput f {| value := v; errorClass := errorClass (inputOf f st) |} st in
  removeVisible f (removeErrorClass f st).

(** The [blur] listener of a field. *)
Definition onBlur (f : Field) (st : State) : State := snd (validate f st).

(** *** The submit handler *)

Record SubmitEvent : Type := { defaultPrevented : bool }.

Definition preventDefault (e : SubmitEvent) : SubmitEvent :=
  {| defaultPrevented := true |}.

Inductive Stage : Type :=
| Returned   (* the handler's promise is settled *)
| Suspended  (* the handler waits at its [await] *).

Definition loadingButton : ButtonEl :=
  {| disabled := true; textDisplay := "none"; loaderDisplay := "block" |}.

Definition idleButton : ButtonEl :=
  {| disabled := false; textDisplay := "block"; loaderDisplay := "none" |}.

(** [handleSubmit] up to its [await]: an async function runs
    synchronously until then. *)
Definition handleSubmitStart (e : SubmitEvent) (st : State)
    : SubmitEvent * State * Stage :=
  let e := preventDefault e in
  let '(isNameValid, st) := validateName st in
  let '(isEmailValid, st) := validateEmail st in
  let '(isMessageValid, st) := validateMessage st in
  if negb isNameValid || negb isEmailValid || negb isMessageValid then
    (e, st, Returned)
  else
    let st := setButton loadingButton st in
    (e,
     setRuntime (formSuccess st) (S (awaiting st)) (hideTimers st)
       (alerts st) (consoleErrors st) st,
     Suspended).

(** Statements that can throw: a completion is normal or abrupt. *)
Inductive completion (A : Type) : Type :=
| Normal (a : A)
| Thrown (err : JsError).
Arguments Normal {A} a.
Arguments Thrown {A} err.

Definition M (A : Type) : Type := State -> completion A * State.

Definition ret {A} (a : A) : M A := fun st => (Normal a, st).
Definition throw {A} (err : JsError) : M A := fun st => (Thrown err, st).
Definition bind {A B} (m : M A) (k : A -> M B) : M B :=
  fun st =>
    match m st with
    | (Normal a, st') => k a st'
    | (Thrown err, st') => (Thrown err, st')
    end.
Definition modify (f : State -> State) : M unit := fun st => (Normal tt, f st).

#[local] Instance M_ret : MRet M := @ret.
#[local] Instance M_bind : MBind M := fun A B k m => bind m k.

(** [try { body } catch (error) { handler } finally { fin }]: [fin] runs
    whatever the completion of [body] or of [handler] is, and an abrupt
    completion of [fin] replaces it. *)
Definition tryCatchFinally {A} (body : M A) (handler : JsError -> M A)
    (fin : M unit) : M A :=
  fun st =>
    let '(c, st) :=
      match body st with
      | (Normal a, st') => (Normal a, st')
      | (Thrown err, st') => handler err st'
      end in
    match fin st with
    | (Normal _, st') => (c, st')
    | (Thrown err, st') => (Thrown err, st')
    end.

(** How the awaited promise settles. *)
Inductive Settlement : Type :=
| Fulfilled
| Rejected (err : JsError).

Definition await (s : Settlement) : M unit :=
  match s with
  | Fulfilled => ret tt
  | Rejected err => throw err
  end.

(** [this.formSuccess.classList.add('visible')]: a [TypeError] when the
    element is missing. *)
Definition showSuccess : M unit :=
  fun st =>
    match formSuccess st with
    | Some _ =>
        (Normal tt,
         setRuntime (Some true) (awaiting st) (hideTimers st)
           (alerts st) (consoleErrors st) st)
    | None => (Thrown (TypeError "formSuccess is null"), st)
    end.

(** [this.form.reset()]: every control goes back to its default value;
    no [input] event is fired, classes and error elements stay. *)
Definition formReset : M unit :=
  modify (fun st =>
    setInputs
      {| value := defaultValue st Name; errorClass := errorClass (nameInput st) |}
      {| value := defaultValue st Email; errorClass := errorClass (emailInput st) |}
      {| value := defaultValue st Message; errorClass := errorClass (messageInput st) |}
      st).

(** [setTimeout(..., 5000)]. *)
Definition scheduleHide : M unit :=
  modify (fun st =>
    setRuntime (formSuccess st) (awaiting st) (S (hideTimers st))
      (alerts st) (consoleErrors st) st).

Definition consoleError (err : JsError) : M unit :=
  modify (fun st =>
    setRuntime (formSuccess st) (awaiting st) (hideTimers st)
      (alerts st) (consoleErrors st ++ [err]) st).

Definition alert (msg : string) : M unit :=
  modify (fun st =>
    setRuntime (formSuccess st) (awaiting st) (hideTimers st)
      (alerts st ++ [msg]) (consoleErrors st) st).

(** The [finally] block. *)
Definition resetButton : M unit := modify (setButton idleButton).

(** [handleSubmit] from its [await] on, once the promise has settled. *)
Definition handleSubmitResume (s : Settlement) : M unit :=
  tryCatchFinally
    (await s ;; showSuccess ;; formReset ;; scheduleHide)
    (fun err =>
       consoleError err ;;
       alert "Une erreur est survenue. Veuillez réessayer.")
    resetButton.

(** A whole call with nothing running in between. *)
Definition handleSubmit (e : SubmitEvent) (s : Settlement) (st : State)
    : SubmitEvent * State :=
  match handleSubmitStart e st with
  | (e', st', Returned) => (e', st')
  | (e', st', Suspended) =>
      let st'' := snd (handleSubmitResume s st') in
      (e',
       setRuntime (formSuccess st'') (pred (awaiting st'')) (hideTimers st'')
         (alerts st'') (consoleErrors st'') st'')
  end.

(** The five-second timer's callback. *)
Definition onHideTimer (st : State) : State :=
  setRuntime (Some false) (awaiting st) (pred (hideTimers st))
    (alerts st) (consoleErrors st) st.

(** *** The form as a machine driven by events *)

Inductive Event : Type :=
| Blur (f : Field)
| Typed (f : Field) (v : jsstring)
| Submit
| Settled (s : Settlement)   (* a suspended call resumes *)
| HideTimer.                 (* a five-second timer fires *)

Definition step (st : State) (ev : Event) : State :=
  match ev with
  | Blur f => onBlur f st
  | Typed f v => onInput f v st
  | Submit => snd (fst (handleSubmitStart {| defaultPrevented := false |} st))
  | Settled s =>
      match awaiting st with
      | O => st
      | S n =>
          let st' := snd (handleSubmitResume s st) in
          setRuntime (formSuccess st') n (hideTimers st')
            (alerts st') (consoleErrors st') st'
      end
  | HideTimer =>
      match hideTimers st with
      | O => st
      | S _ => onHideTimer st
      end
  end.

Definition run (st : State) (evs : list Event) : State := fold_left step evs st.



(** The error message the page shows for a field. *)
Definition displayedError (f : Field) (st : State) : string :=
  if visible (errorOf f st) then textContent (errorOf f st) else ""%string.

(** *** The specification's vocabulary *)

Inductive ErrorKind : Type := EmptyField | TooShort | InvalidFormat.

Inductive Verdict : Type := Valid | Fails (k : ErrorKind).

(** The message the code shows for each kind of failure of a field. *)
Definition messageOf (f : Field) (k : ErrorKind) : string :=
  match f, k with
  | Name, EmptyField => "Le nom est requis"
  | Name, _ => "Le nom doit contenir au moins 2 caractères"
  | Email, EmptyField => "L'email est requis"
  | Email, _ => "Veuillez entrer un email valide"
  | Message, EmptyField => "Le message est requis"
  | Message, _ => "Le message doit contenir au moins 10 caractères"
  end.

(** What a validator does on a verdict: its return value and the page. *)
Definition outcome (f : Field) (v : Verdict) (st : State) : bool * State :=
  match v with
  | Valid => (true, clearError f st)
  | Fails k => (false, showError f (messageOf f k) st)
  end.

(** The shape the specification gives the e-mail pattern: three
    non-empty runs of code units that are neither white space nor [@],
    the first two separated by [@], the last two by a dot. *)
Definition run_ok (s : jsstring) : Prop :=
  s <> [] /\ Forall (fun c => notSpaceAt c = true) s.

Definition emailShape (s : jsstring) : Prop :=
  exists l d t : jsstring,
    s = l ++ lit "@" ++ d ++ lit "." ++ t /\ run_ok l /\ run_ok d /\ run_ok t.

(** The verdict on a field's value, without any effect on the page. *)
Definition nameVerdict (v : jsstring) : Verdict :=
  let n := length (trim v) in
  if (n =? 0)%nat then Fails EmptyField
  else if (n <? 2)%nat then Fails TooShort
  else Valid.

Definition emailVerdict (v : jsstring) : Verdict :=
  let s := trim v in
  if (length s =? 0)%nat then Fails EmptyField
  else if test emailRegex s then Valid
  else Fails InvalidFormat.

Definition messageVerdict (v : jsstring) : Verdict :=
  let n := length (trim v) in
  if (n =? 0)%nat then Fails EmptyField
  else if (n <? 10)%nat then Fails TooShort
  else Valid.

Definition verdictOf (f : Field) : jsstring -> Verdict :=
  match f with
  | Name => nameVerdict
  | Email => emailVerdict
  | Message => messageVerdict
  end.

Definition isValid (f : Field) (v : jsstring) : bool :=
  match verdictOf f v with
  | Valid => true
  | Fails _ => false
  end.

(** The three validators in the order [handleSubmit] calls them, each on
    the page the previous one left; whether all three return [true]; and
    the loading state the handler enters before it suspends. *)
Definition validateAll (st : State) : State :=
  snd (validateMessage (snd (validateEmail (snd (validateName st))))).

Definition allValid (st : State) : bool :=
  isValid Name (value (nameInput st))
  && isValid Email (value (emailInput st))
  && isValid Message (value (messageInput st)).

Definition enterLoading (st : State) : State :=
  let st := setButton loadingButton st in
  setRuntime (formSuccess st) (S (awaiting st)) (hideTimers st)
    (alerts st) (consoleErrors st) st.

(** The verdicts read on the value as typed, with no trimming. *)
Definition messageVerdictUntrimmed (v : jsstring) : Verdict :=
  if (length v =? 0)%nat then Fails EmptyField
  else if (length v <? 10)%nat then Fails TooShort
  else Valid.

Definition emailVerdictUntrimmed (v : jsstring) : Verdict :=
  if (length v =? 0)%nat then Fails EmptyField
  else if test emailRegex v then Valid
  else Fails InvalidFormat.

(** A page with empty fields, nothing displayed, no call in flight. *)
Definition initial (success : option bool) (defaults : Field -> jsstring) : State :=
  {| nameInput := {| value := defaults Name; errorClass := false |};
     emailInput := {| value := defaults Email; errorClass := false |};
     messageInput := {| value := defaults Message; errorClass := false |};
     nameError := {| textContent := ""; visible := false |};
     emailError := {| textContent := ""; visible := false |};
     messageError := {| textContent := ""; visible := false |};
     formSuccess := success;
     submitButton := {| disabled := false; textDisplay := ""; loaderDisplay := "" |};
     defaultValue := defaults;
     awaiting := 0; hideTimers := 0; alerts := []; consoleErrors := [] |}.

Definition blank : State := initial (Some false) (fun _ => []).

(** Values used as examples. *)
Definition tenSpaces : jsstring := lit "          ".
Definition nineSpaces : jsstring := lit "         ".
Definition paddedHi : jsstring := lit "hi        ".
Definition oneSpace : jsstring := lit " ".
Definition paddedEmail : jsstring := lit " a@b.c ".





Definition filled : State :=
  {| nameInput := {| value := lit "Jo"; errorClass := false |};
     emailInput := {| value := lit "jo@x.com"; errorClass := false |};
     messageInput := {| value := lit "Hello there!"; errorClass := false |};
     nameError := {| textContent := ""; visible := false |};
     emailError := {| textContent := ""; visible := false |};
     messageError := {| textContent := ""; visible := false |};
     formSuccess := Some false;
     submitButton := {| disabled := false; textDisplay := ""; loaderDisplay := "" |};
     defaultValue := fun _ => [];
     awaiting := 0; hideTimers := 0; alerts := []; consoleErrors := [] |}.

(** The page [st] with [v] as the value of field [f]. *)
Definition withValue (f : Field) (v : jsstring) (st : State) : State :=
  setInput f {| value := v; errorClass := errorClass (inputOf f st) |} st.

End ContactForm.


(** ** ContactForm: what every reachable page satisfies *)

Module FormInvariant.
Import JS ContactForm.

(** A page on which, for every field, the input carries the [error]
    class exactly when its error element is visible, and a visible error
    element holds one of the field's messages; the button is disabled only
    while a call of the submit handler is suspended; the success element
    is present or absent as on load, with a hide timer pending only if it
    is present; and the default values are those of the markup. *)
Definition consistent (success : option bool) (defaults : Field -> jsstring)
    (st : State) : Prop :=
  (forall f,
     errorClass (inputOf f st) = visible (errorOf f st)
     /\ (visible (errorOf f st) = true ->
         exists k, textContent (errorOf f st) = messageOf f k))
  /\ (disabled (submitButton st) = true -> awaiting st <> 0%nat)
  /\ (formSuccess st = None <-> success = None)
  /\ (formSuccess st = None -> hideTimers st = 0%nat)
  /\ defaultValue st = defaults.

(** A string of white space only. *)
Definition allSpace (s : jsstring) : Prop := Forall (fun c => isWhiteSpace c = true) s.

(** [simulateFormSubmission]: the promise it returns is resolved by its
    timer and never rejected. *)
Definition simulateFormSubmission : Settlement := Fulfilled.

(** Histories in which every suspended call is resumed by the promise of
    [simulateFormSubmission]. *)
Definition simulated (evs : list Event) : Prop :=
  Forall (fun ev => match ev with
                    | Settled s => s = simulateFormSubmission
                    | _ => True
                    end) evs.

(** A page without the success element, filled like [filled]. *)
Definition filledNoSuccess : State :=
  setRuntime None 0 0 [] [] filled.

End FormInvariant.

(** ** AccessibilityEnhancements: the focus trap *)

Module FocusTrap.

(** What the [keydown] listener of the menu leaves: whether it prevented
    the default action, the focused element afterwards ([None]: none of
    the page's elements), and whether it threw. *)
Record TrapResult : Type := {
  trapPrevented : bool;
  trapFocus : option nat;
  trapThrew : bool
}.

(** [document.activeElement === end], for [end] one of
    [focusableElements[0]] and [focusableElements[length - 1]], which are
    [undefined] ([None]) when the list is empty: no element, and not
    [null] either, is identical to [undefined]. *)
Definition sameElement (active : option nat) (end_ : option nat) : bool :=
  match active, end_ with
  | Some a, Some b => bool_decide (a = b)
  | _, _ => false
  end.

(** [end.focus()] after [e.preventDefault()].  On [undefined] it throws.
    On an element it moves the focus there only if the element can take
    the focus ([canFocus]): a link without [href], a disabled button or a
    hidden element cannot, and [focus()] then does nothing. *)
Definition focusEnd (canFocus : nat -> bool) (active : option nat)
    (end_ : option nat) : TrapResult :=
  match end_ with
  | Some x =>
      {| trapPrevented := true;
         trapFocus := if canFocus x then Some x else active;
         trapThrew := false |}
  | None => {| trapPrevented := true; trapFocus := active; trapThrew := true |}
  end.

(** The listener of [setupFocusManagement], for the menu's elements
    [focusables] (those [querySelectorAll('a, button')] returned, in
    document order). *)
Definition onTrapKeyDown (canFocus : nat -> bool) (focusables : list nat)
    (key : string) (shiftKey : bool) (active : option nat) : TrapResult :=
  let firstFocusable := head focusables in
  let lastFocusable := last focusables in
  let untouched :=
    {| trapPrevented := false; trapFocus := active; trapThrew := false |} in
  if bool_decide (key = "Tab"%string) then
    if shiftKey then
      if sameElement active firstFocusable
      then focusEnd canFocus active lastFocusable
      else untouched
    else
      if sameElement active lastFocusable
      then focusEnd canFocus active firstFocusable
      else untouched
  else untouched.

End FocusTrap.

(** ** The rate limiters: [throttle] and [debounce] *)

Module Timers.

Section Wrapped.
Context {A St : Type}.

(** The wrapped function: what a call with arguments [a] does to the
    state it works on. *)
Variable func : A -> St -> St.

(** *** [throttle] *)

(** The closure of a throttled function: the flag [inThrottle]
    ([undefined] at first, which tests as false) and the reset timers
    [setTimeout] has pending; [t_inner] is the state [func] works on. *)
Record Throttled : Type := {
  t_inner : St;
  inThrottle : bool;
  resetTimers : nat
}.

Definition throttleFresh (s : St) : Throttled :=
  {| t_inner := s; inThrottle := false; resetTimers := 0 |}.

(** A call of the function [throttle] returns. *)
Definition throttleCall (a : A) (t : Throttled) : Throttled :=
  if negb (inThrottle t)
  then {| t_inner := func a (t_inner t);
          inThrottle := true;
          resetTimers := S (resetTimers t) |}
  else t.

(** A pending reset timer expires: [() => inThrottle = false]. *)
Definition throttleReset (t : Throttled) : Throttled :=
  match resetTimers t with
  | O => t
  | S n => {| t_inner := t_inner t; inThrottle := false; resetTimers := n |}
  end.

Inductive TEvent : Type :=
| TCall (a : A)
| TTimer.

Definition throttleStep (t : Throttled) (ev : TEvent) : Throttled :=
  match ev with
  | TCall a => throttleCall a t
  | TTimer => throttleReset t
  end.

Definition throttleRun (t : Throttled) (evs : list TEvent) : Throttled :=
  fold_left throttleStep evs t.

(** The arguments of the calls that reach [func], in order. *)
Definition reaches (t : Throttled) (ev : TEvent) : list A :=
  match ev with
  | TCall a => if negb (inThrottle t) then [a] else []
  | TTimer => []
  end.

Fixpoint throttleExecuted (t : Throttled) (evs : list TEvent) : list A :=
  match evs with
  | [] => []
  | ev :: evs' => reaches t ev ++ throttleExecuted (throttleStep t ev) evs'
  end.

(** The arguments of all calls, and the number of timer expiries. *)
Definition callArgs (evs : list TEvent) : list A :=
  omap (fun ev => match ev with TCall a => Some a | TTimer => None end) evs.

Definition expiries (evs : list TEvent) : nat :=
  length (List.filter (fun ev => match ev with TTimer => true | TCall _ => false end) evs).

(** *** [debounce] *)

(** The closure of a debounced function: the handle [timeout] ([None]:
    [undefined]), the timers that are set and not yet expired or cleared,
    each with the arguments its [later] closes over, and the next handle
    [setTimeout] gives out. *)
Record Debounced : Type := {
  d_inner : St;
  timeout : option nat;
  liveTimers : gmap nat A;
  nextTimer : nat
}.

Definition debounceFresh (s : St) : Debounced :=
  {| d_inner := s; timeout := None; liveTimers := ∅; nextTimer := 0 |}.

(** [clearTimeout(h)]: nothing happens for [undefined] or a dead handle. *)
Definition clearTimeout (h : option nat) (timers : gmap nat A) : gmap nat A :=
  match h with
  | Some id => delete id timers
  | None => timers
  end.

(** A call of [executedFunction]. *)
Definition debounceCall (a : A) (d : Debounced) : Debounced :=
  let timers := clearTimeout (timeout d) (liveTimers d) in
  {| d_inner := d_inner d;
     timeout := Some (nextTimer d);
     liveTimers := <[nextTimer d := a]> timers;
     nextTimer := S (nextTimer d) |}.

(** The timer [id] expires and runs its [later]; a timer that is not
    live cannot expire. *)
Definition debounceFire (id : nat) (d : Debounced) : Debounced :=
  match liveTimers d !! id with
  | None => d
  | Some a =>
      let timers := clearTimeout (timeout d) (delete id (liveTimers d)) in
      {| d_inner := func a (d_inner d);
         timeout := timeout d;
         liveTimers := timers;
         nextTimer := nextTimer d |}
  end.

Inductive DEvent : Type :=
| DCall (a : A)
| DExpire (id : nat).

Definition debounceStep (d : Debounced) (ev : DEvent) : Debounced :=
  match ev with
  | DCall a => debounceCall a d
  | DExpire id => debounceFire id d
  end.

Definition debounceRun (d : Debounced) (evs : list DEvent) : Debounced :=
  fold_left debounceStep evs d.

(** The arguments [func] is run on, in order. *)
Definition runsOn (d : Debounced) (ev : DEvent) : list A :=
  match ev with
  | DCall _ => []
  | DExpire id =>
      match liveTimers d !! id with
      | Some a => [a]
      | None => []
      end
  end.

Fixpoint debounceExecuted (d : Debounced) (evs : list DEvent) : list A :=
  match evs with
  | [] => []
  | ev :: evs' => runsOn d ev ++ debounceExecuted (debounceStep d ev) evs'
  end.

End Wrapped.

Arguments Throttled : clear implicits.
Arguments Debounced : clear implicits.
Arguments TEvent : clear implicits.
Arguments DEvent : clear implicits.

End Timers.

(** ** Navigation: the scrolled bar and smooth scrolling *)

Module Scrolling.
Import Navigation.

(** The callback of [setupScrollBehavior]: the new state of the bar's
    [scrolled] class, [window.scrollY > 50]. *)
Definition scrollBehavior (scrollY : Q) (scrolled : bool) : bool :=
  if negb (Qle_bool scrollY 50) then true else false.

(** What [document.querySelector(href)] can do: find an element (of which
    the listener reads [offsetTop]), find none, or refuse the selector. *)
Inductive QueryResult : Type :=
| Found (top : Z)
| NotFound
| SyntaxError.

(** What a click on a link leaves: whether the default action was
    prevented, the [top] given to [window.scrollTo], and whether the
    listener threw. *)
Record ClickResult : Type := {
  clickPrevented : bool;
  scrollTarget : option Z;
  threw : bool
}.

(** [href.startsWith('#')]. *)
Definition startsWithHash (s : string) : bool :=
  match s with
  | String "#" _ => true
  | _ => false
  end.

(** The click listener of [setupSmoothScroll] on a link with attribute
    [href] ([None]: absent, so [href.startsWith] throws). *)
Definition onSmoothClick (querySelector : string -> QueryResult)
    (href : option string) : ClickResult :=
  match href with
  | None => {| clickPrevented := false; scrollTarget := None; threw := true |}
  | Some h =>
      if startsWithHash h then
        match querySelector h with
        | Found top =>
            {| clickPrevented := true; scrollTarget := Some (top - 80); threw := false |}
        | NotFound =>
            {| clickPrevented := true; scrollTarget := None; threw := false |}
        | SyntaxError =>
            {| clickPrevented := true; scrollTarget := None; threw := true |}
        end
      else {| clickPrevented := false; scrollTarget := None; threw := false |}
  end.

(** Sections in the order of their top offsets. *)
Definition offsetSorted (sections : list SectionEl) : Prop :=
  StronglySorted (fun s s' => offsetTop s <= offsetTop s') sections.

Definition twoSections : list SectionEl :=
  [ {| sec_id := "home"; offsetTop := 0; clientHeight := 600 |};
    {| sec_id := "about"; offsetTop := 600; clientHeight := 700 |} ].

End Scrolling.

(** ** Histories of observer notifications *)

Module Intersections.
Import ScrollAnimations.

(** Some notification reports [e] as intersecting. *)
Definition everIntersects (e : elem) (batches : list (list Entry)) : Prop :=
  Exists (fun b => e ∈ animatedBy b) batches.

(** No notification reports one target as intersecting twice. *)
Definition reportsOnce (batches : list (list Entry)) : Prop :=
  Forall (fun b => NoDup (animatedBy b)) batches.

(** How often a notification reports [e] as intersecting. *)
Definition timesReported (e : elem) (entries : list Entry) : nat :=
  length (filter (fun x => x = e) (animatedBy entries)).

(** The inline style of a [data-animate] element after set-up, and after
    an intersection. *)
Definition hiddenStyle : Style :=
  {| opacity := "0"; transform := "translateY(20px)";
     transition := "opacity 0.6s ease, transform 0.6s ease" |}.

Definition shownStyle : Style :=
  {| opacity := "1"; transform := "translateY(0)";
     transition := "opacity 0.6s ease, transform 0.6s ease" |}.

End Intersections.

(** ** PerformanceOptimizer: lazy images and link prefetch *)

Module PerformanceOptimizer.
Import ScrollAnimations.

(** An [img[data-src]] element: its [src] and [data-src] attributes. *)
Record Img : Type := {
  src : option string;
  dataSrc : option string
}.

Definition noImg : Img := {| src := None; dataSrc := None |}.

Record Images : Type := {
  imgs : gmap elem Img;
  imgObserved : gset elem
}.

Definition imgOf (s : Images) (e : elem) : Img := default noImg (imgs s !! e).

(** [img.src = img.dataset.src; img.removeAttribute('data-src')]:
    [dataset.src] is [undefined] when the attribute is absent, and the
    assignment stores its string form. *)
Definition loadImg (i : Img) : Img :=
  {| src := Some (default "undefined"%string (dataSrc i)); dataSrc := None |}.

(** [images.forEach(img => imageObserver.observe(img))]. *)
Definition observeImages (els : list elem) (s : Images) : Images :=
  {| imgs := imgs s; imgObserved := list_to_set els ∪ imgObserved s |}.

(** The observer callback of [lazyLoadImages] on one entry. *)
Definition loadEntry (s : Images) (en : Entry) : Images :=
  if isIntersecting en
  then {| imgs := <[target en := loadImg (imgOf s (target en))]> (imgs s);
          imgObserved := imgObserved s ∖ {[target en]} |}
  else s.

Definition lazyCallback (entries : list Entry) (s : Images) : Images :=
  fold_left loadEntry entries s.

(** One notification: the observer reports only its observation targets. *)
Definition lazyNotify (s : Images) (batch : list Entry) : Images :=
  lazyCallback (filter (fun en => target en ∈ imgObserved s) batch) s.

Definition lazyRun (s : Images) (batches : list (list Entry)) : Images :=
  fold_left lazyNotify batches s.

(** A [<link rel="prefetch">] appended to the document head. *)
Record PrefetchEl : Type := {
  rel : string;
  prefetchHref : string
}.

(** The links whose [mouseenter] listener is still registered (a listener
    added with [once: true] is removed when it has run), and the children
    appended to the head. *)
Record Prefetch : Type := {
  armed : gset elem;
  headChildren : list PrefetchEl
}.

(** [prefetchLinks] on the links [a[href^="http"]] of the page. *)
Definition prefetchSetup (links : list elem) (head : list PrefetchEl) : Prefetch :=
  {| armed := list_to_set links; headChildren := head |}.

(** A [mouseenter] event on link [l], whose [href] property is [hrefOf l]. *)
Definition onMouseEnter (hrefOf : elem -> string) (p : Prefetch) (l : elem) : Prefetch :=
  if decide (l ∈ armed p)
  then {| armed := armed p ∖ {[l]};
          headChildren :=
            headChildren p ++ [{| rel := "prefetch"; prefetchHref := hrefOf l |}] |}
  else p.

Definition hoverRun (hrefOf : elem -> string) (p : Prefetch) (ls : list elem) : Prefetch :=
  fold_left (onMouseEnter hrefOf) ls p.

(** A list without its repetitions: every element at the place of its
    first occurrence. *)
Fixpoint firstOccurrences (ls : list elem) : list elem :=
  match ls with
  | [] => []
  | l :: ls' => l :: filter (fun x => x <> l) (firstOccurrences ls')
  end.

(** The prefetch element [onMouseEnter] appends for link [l]. *)
Definition prefetchFor (hrefOf : elem -> string) (l : elem) : PrefetchEl :=
  {| rel := "prefetch"; prefetchHref := hrefOf l |}.

Definition onePicture : Images :=
  observeImages [7%nat]
    {| imgs := {[ 7%nat := {| src := None; dataSrc := Some "photo.jpg"%string |} ]};
       imgObserved := ∅ |}.

End PerformanceOptimizer.

(* ================================================================== *)
(** * Part II: properties                                              *)
(* ================================================================== *)

(** ** Strings and regular expressions *)

Section StringFacts.
Import JS.

Example isWhiteSpace_examples :
  isWhiteSpace 32%N = true /\ isWhiteSpace 9%N = true /\ isWhiteSpace 160%N = true
  /\ isWhiteSpace 8232%N = true /\ isWhiteSpace 65%N = false
  /\ isWhiteSpace 64%N = false.
Proof. repeat split. Qed.

(** [trimStart] leaves no white space in front, and nothing of a string
    that is all white space. *)
Lemma trimStart_head s c s' : trimStart s = c :: s' -> isWhiteSpace c = false.
Proof.
  induction s as [ | d s IH]; simpl; [discriminate | ].
  destruct (isWhiteSpace d) eqn:Hd; [exact IH | ].
  intros H. injection H as -> _. exact Hd.
Qed.

Lemma trimStart_blank s :
  Forall (fun c => isWhiteSpace c = true) s -> trimStart s = [].
Proof. induction 1 as [ | c s Hc _ IH]; simpl; [reflexivity | now rewrite Hc]. Qed.

Lemma trim_blank s : Forall (fun c => isWhiteSpace c = true) s -> trim s = [].
Proof. intros H. unfold trim. now rewrite (trimStart_blank s H). Qed.

(** A string with no white space at either end is its own trim. *)
Lemma trim_clean c s d :
  isWhiteSpace c = false -> isWhiteSpace d = false ->
  trim (c :: s ++ [d]) = c :: s ++ [d].
Proof.
  intros Hc Hd. unfold trim, trimEnd. simpl. rewrite Hc.
  change (c :: s ++ [d]) with ((c :: s) ++ [d]).
  rewrite rev_app_distr. simpl. rewrite Hd.
  change (d :: rev s ++ [c]) with ([d] ++ (rev s ++ [c])).
  rewrite rev_app_distr, rev_app_distr, rev_involutive. reflexivity.
Qed.

Lemma app_nil_both {A} (s1 s2 : list A) : s1 ++ s2 = [] -> s1 = [] /\ s2 = [].
Proof. destruct s1; simpl; [tauto | discriminate]. Qed.

Lemma nullable_Matches r : nullable r = true <-> Matches r [].
Proof.
  split.
  - induction r as [ | | p | r1 IH1 r2 IH2 | r1 IH1 r2 IH2 | r IH]; simpl; intros H;
      try discriminate.
    + constructor.
    + apply orb_true_iff in H as [H | H]; [apply MAltL | apply MAltR]; auto.
    + apply andb_true_iff in H as [H1 H2].
      change (@nil code_unit) with (@nil code_unit ++ []). constructor; auto.
    + constructor.
  - intros H. remember [] as s eqn:Hs.
    induction H as [ | p c Hp | r1 r2 s H IH | r1 r2 s H IH
                   | r1 r2 s1 s2 H1 IH1 H2 IH2 | r | r s1 s2 H1 IH1 H2 IH2]; simpl;
      try discriminate; auto.
    + rewrite IH; auto.
    + rewrite IH; auto using orb_true_r.
    + apply app_nil_both in Hs as [-> ->]. rewrite IH1, IH2; auto.
Qed.

Lemma Matches_deriv c r s : Matches (deriv c r) s -> Matches r (c :: s).
Proof.
  revert s.
  induction r as [ | | p | r1 IH1 r2 IH2 | r1 IH1 r2 IH2 | r IH]; simpl; intros s H.
  - inversion H.
  - inversion H.
  - destruct (p c) eqn:Hp; inversion H; subst. now constructor.
  - inversion H; subst; [apply MAltL | apply MAltR]; auto.
  - destruct (nullable r1) eqn:Hn.
    + inversion H as [ | | ? ? ? H' | ? ? ? H' | | | ]; subst.
      * inversion H' as [ | | | | ? ? s1 s2 Ha Hb | | ]; subst.
        change (c :: s1 ++ s2) with ((c :: s1) ++ s2). constructor; auto.
      * change (c :: s) with ([] ++ c :: s). constructor; auto.
        now apply nullable_Matches.
    + inversion H as [ | | | | ? ? s1 s2 Ha Hb | | ]; subst.
      change (c :: s1 ++ s2) with ((c :: s1) ++ s2). constructor; auto.
  - inversion H as [ | | | | ? ? s1 s2 Ha Hb | | ]; subst.
    change (c :: s1 ++ s2) with ((c :: s1) ++ s2). constructor; auto.
Qed.

Lemma deriv_Matches c r s : Matches r (c :: s) -> Matches (deriv c r) s.
Proof.
  intros H. remember (c :: s) as cs eqn:Hcs. revert s Hcs.
  induction H as [ | p c' Hp | r1 r2 s' H IH | r1 r2 s' H IH
                 | r1 r2 s1 s2 H1 IH1 H2 IH2 | r | r s1 s2 H1 IH1 H2 IH2];
    intros s Hcs; simpl.
  - discriminate.
  - injection Hcs as -> <-. rewrite Hp. constructor.
  - apply MAltL; auto.
  - apply MAltR; auto.
  - destruct s1 as [ | c1 s1]; simpl in Hcs.
    + subst s2. apply nullable_Matches in H1. rewrite H1. apply MAltR; auto.
    + injection Hcs as -> <-.
      destruct (nullable r1); [apply MAltL | ]; constructor; auto.
  - discriminate.
  - destruct s1 as [ | c1 s1]; simpl in Hcs.
    + auto.
    + injection Hcs as -> <-. constructor; auto.
Qed.

(** [test] decides membership in the language. *)
Lemma test_Matches r s : test r s = true <-> Matches r s.
Proof.
  unfold test. revert r.
  induction s as [ | c s IH]; intros r; simpl.
  - apply nullable_Matches.
  - rewrite IH. split; [apply Matches_deriv | apply deriv_Matches].
Qed.

Lemma Matches_Star_Class p s :
  Matches (Star (Class p)) s <-> Forall (fun c => p c = true) s.
Proof.
  split.
  - intros H. remember (Star (Class p)) as r eqn:Hr.
    induction H as [ | | | | | r | r s1 s2 H1 _ H2 IH2]; try discriminate.
    + constructor.
    + injection Hr as ->. inversion H1; subst. constructor; auto.
  - induction 1 as [ | c s Hc _ IH].
    + constructor.
    + change (c :: s) with ([c] ++ s). constructor; auto. now constructor.
Qed.

Lemma Matches_Plus_Class p s :
  Matches (Plus (Class p)) s <-> s <> [] /\ Forall (fun c => p c = true) s.
Proof.
  unfold Plus. split.
  - intros H. inversion H as [ | | | | ? ? s1 s2 Ha Hb | | ]; subst.
    inversion Ha; subst. split; [discriminate | ].
    constructor; auto. now apply Matches_Star_Class.
  - intros [Hne Hall]. destruct s as [ | c s]; [congruence | ].
    inversion Hall; subst.
    change (c :: s) with ([c] ++ s). constructor; [now constructor | ].
    now apply Matches_Star_Class.
Qed.

Lemma Matches_Chr c s : Matches (Chr c) s <-> s = [c].
Proof.
  unfold Chr. split.
  - intros H. inversion H as [ | ? c' Hc | | | | | ]; subst.
    apply N.eqb_eq in Hc. now subst.
  - intros ->. constructor. apply N.eqb_refl.
Qed.

Lemma Matches_Seq r1 r2 s :
  Matches (Seq r1 r2) s <-> exists s1 s2, s = s1 ++ s2 /\ Matches r1 s1 /\ Matches r2 s2.
Proof.
  split.
  - intros H. inversion H; subst. eauto.
  - intros (s1 & s2 & -> & H1 & H2). now constructor.
Qed.

End StringFacts.

(** ** Navigation *)

Section NavigationFacts.
Import Navigation.

(** The loop keeps the last section that passes the test, whatever it
    started from. *)
Lemma scan_fold (S : Q) (sections : list SectionEl) (acc : string) :
  fold_left (fun current s => if crossed S s then sec_id s else current) sections acc
  = default acc (last (sec_id <$> List.filter (crossed S) sections)).
Proof.
  revert acc. induction sections as [ | s sections IH]; intros acc.
  - reflexivity.
  - cbn [fold_left List.filter]. rewrite IH.
    destruct (crossed S s); [ | reflexivity].
    rewrite fmap_cons, last_cons.
    now destruct (last (sec_id <$> List.filter (crossed S) sections)).
Qed.

Lemma crossed_iff (S : Q) (s : SectionEl) :
  crossed S s = true <-> (inject_Z (offsetTop s - 200) <= S)%Q.
Proof. unfold crossed. apply Qle_bool_iff. Qed.

(** No threshold crossed: no current section. *)
Lemma scan_none (S : Q) (sections : list SectionEl) :
  Forall (fun s => crossed S s = false) sections ->
  scanSections S sections = ""%string.
Proof.
  intros H. unfold scanSections. rewrite scan_fold.
  replace (List.filter (crossed S) sections) with (@nil SectionEl); [reflexivity | ].
  induction H as [ | s l Hs _ IH]; simpl; [reflexivity | ]. now rewrite Hs.
Qed.

(** The section after which no threshold is crossed is the current one:
    among sections with equal thresholds the later one wins. *)
Lemma scan_last (S : Q) (before after : list SectionEl) (s : SectionEl) :
  crossed S s = true ->
  Forall (fun s' => crossed S s' = false) after ->
  scanSections S (before ++ s :: after) = sec_id s.
Proof.
  intros Hs Hafter. unfold scanSections.
  rewrite fold_left_app. simpl. rewrite Hs.
  rewrite scan_fold.
  replace (List.filter (crossed S) after) with (@nil SectionEl); [reflexivity | ].
  induction Hafter as [ | s' l Hs' _ IH]; simpl; [reflexivity | ]. now rewrite Hs'.
Qed.

(** With no threshold crossed, only a link whose [href] is a bare [#] can
    be marked: no link that names a section is. *)
Lemma scan_none_links (S : Q) (sections : list SectionEl) (links : list LinkEl) :
  Forall (fun s => crossed S s = false) sections ->
  snd (handleScroll S sections links) = markLinks "" links
  /\ forall l, In l (snd (handleScroll S sections links)) ->
       link_active l = true -> href l = Some "#"%string.
Proof.
  intros H. unfold handleScroll. rewrite (scan_none S sections H). cbn [snd].
  split; [reflexivity | ].
  intros l Hin Hact. unfold markLinks in Hin.
  apply list_elem_of_In, list_elem_of_fmap in Hin as (l0 & -> & _).
  simpl in *. now apply bool_decide_eq_true in Hact.
Qed.

Example scan_tie :
  scanSections 300
    [ {| sec_id := "home"; offsetTop := 0; clientHeight := 500 |};
      {| sec_id := "about"; offsetTop := 500; clientHeight := 0 |};
      {| sec_id := "skills"; offsetTop := 500; clientHeight := 400 |};
      {| sec_id := "contact"; offsetTop := 900; clientHeight := 400 |} ]
  = "skills"%string.
Proof. reflexivity. Qed.

(** C1. On a scroll event at offset [S], the active section id the handler
    computes is the id of the last section, in document order, whose top
    offset minus 200 is at most [S], and the empty string when there is no
    such section; the links marked active are those whose [href] is [#]
    followed by that id. *)
Theorem C1_active_section (S : Q) (sections : list SectionEl) (links : list LinkEl) :
  let current := fst (handleScroll S sections links) in
  current = default ""%string (last (sec_id <$> List.filter (crossed S) sections))
  /\ (forall s, In s (List.filter (crossed S) sections)
                <-> In s sections /\ (inject_Z (offsetTop s - 200) <= S)%Q)
  /\ link_active <$> snd (handleScroll S sections links)
     = (fun l => bool_decide (href l = Some ("#" +:+ current))) <$> links.
Proof.
  simpl. split; [ | split].
  - unfold scanSections. apply scan_fold.
  - intros s. rewrite filter_In, crossed_iff. reflexivity.
  - unfold markLinks. rewrite <- list_fmap_compose. reflexivity.
Qed.

(** Every listener keeps the attribute and the class in step. *)
Lemma onToggleClick_inSync m : inSync m -> inSync (onToggleClick m).
Proof.
  unfold inSync, onToggleClick. intros [H1 H2]. simpl.
  case_bool_decide as Ha; simpl.
  - rewrite (H1 Ha). simpl. split; discriminate.
  - destruct (menuActive m); simpl.
    + exfalso. apply Ha. now apply H2.
    + split; reflexivity.
Qed.

Lemma onLinkClick_inSync m : inSync (onLinkClick m).
Proof. unfold inSync, onLinkClick. simpl. split; discriminate. Qed.

Lemma onDocumentClick_inSync b m : inSync m -> inSync (onDocumentClick b m).
Proof.
  unfold onDocumentClick. destruct b; simpl; [tauto | ].
  intros _. unfold inSync. simpl. split; discriminate.
Qed.

Lemma onKeyDown_inSync key m : inSync m -> inSync (onKeyDown key m).
Proof.
  unfold onKeyDown. case_bool_decide; [ | tauto].
  destruct (menuActive m) eqn:E; [ | tauto].
  intros _. unfold inSync. simpl. split; discriminate.
Qed.

Lemma step_inSync m e : inSync m -> inSync (step m e).
Proof.
  destruct e as [path inNav | key]; simpl.
  - intros H. apply onDocumentClick_inSync.
    revert m H. induction path as [ | l path IH]; intros m H; simpl; [exact H | ].
    apply IH. destruct l; simpl.
    + now apply onToggleClick_inSync.
    + apply onLinkClick_inSync.
  - apply onKeyDown_inSync.
Qed.

(** A click on a link or outside the navigation bar closes the menu and
    brings attribute and class in step from any state. *)
Lemma closing_click_inSync m path :
  inSync (step m (Click (path ++ [LinkListener]) true))
  /\ inSync (step m (Click path false)).
Proof.
  split; simpl.
  - rewrite fold_left_app. simpl. apply onLinkClick_inSync.
  - unfold inSync. simpl. split; discriminate.
Qed.

(** C9. From a page whose [aria-expanded] attribute agrees with the menu's
    [active] class, after every sequence of toggle clicks, link clicks,
    outside clicks and key presses the attribute is ["true"] exactly when
    the menu is open.  (The statement holds for every sequence, so for
    every prefix of one: after each handled event.) *)
Theorem C9_aria_mirrors_menu (m : Menu) (es : list Event) :
  inSync m -> inSync (run m es).
Proof.
  unfold run. revert m. induction es as [ | e es IH]; intros m H; simpl.
  - exact H.
  - apply IH. now apply step_inSync.
Qed.

Lemma closedMenu_inSync : inSync closedMenu.
Proof. unfold inSync, closedMenu. simpl. split; discriminate. Defined.

Lemma C9_witness :
  inSync (run closedMenu
            [toggleClick true; escapeKey; toggleClick true; linkClick true;
             toggleClick true; outsideClick]).
Proof. apply C9_aria_mirrors_menu. exact closedMenu_inSync. Defined.

Example menu_opens :
  run closedMenu [toggleClick true]
  = {| ariaExpanded := Some "true"%string; menuActive := true; toggleFocusCalled := false |}.
Proof. reflexivity. Qed.

End NavigationFacts.

(** ** ScrollAnimations *)

Section ScrollAnimationsFacts.
Import ScrollAnimations.

Lemma Hidden_not_Revealed styles e : Hidden styles e -> ~ Revealed styles e.
Proof. intros [H _] [H' _]. rewrite H in H'. discriminate. Qed.

Lemma styleOf_insert styles e e' st :
  styleOf (<[e := st]> styles) e' = if decide (e = e') then st else styleOf styles e'.
Proof.
  unfold styleOf. destruct (decide (e = e')) as [-> | Hne].
  - now rewrite lookup_insert_eq.
  - now rewrite lookup_insert_ne.
Qed.

Lemma hideAll_Hidden els styles e : In e els -> Hidden (hideAll els styles) e.
Proof.
  unfold hideAll. revert styles.
  induction els as [ | e' els IH] using rev_ind; intros styles Hin; [destruct Hin | ].
  rewrite fold_left_app. simpl. unfold Hidden. rewrite styleOf_insert.
  destruct (decide (e' = e)) as [-> | Hne]; [now split | ].
  apply in_app_or in Hin as [Hin | [Heq | []]]; [ | congruence].
  now apply IH.
Qed.

Lemma revealEntry_Revealed styles en e :
  Revealed styles e -> Revealed (revealEntry styles en) e.
Proof.
  unfold revealEntry, Revealed. destruct (isIntersecting en); [ | tauto].
  rewrite styleOf_insert. destruct (decide (target en = e)); [now split | tauto].
Qed.

Lemma revealCallback_Revealed entries styles e :
  Revealed styles e -> Revealed (revealCallback entries styles) e.
Proof.
  unfold revealCallback. revert styles.
  induction entries as [ | en entries IH]; intros styles H; simpl; [exact H | ].
  apply IH. now apply revealEntry_Revealed.
Qed.

Lemma revealRun_Revealed batches styles e :
  Revealed styles e -> Revealed (revealRun styles batches) e.
Proof.
  unfold revealRun. revert styles.
  induction batches as [ | b batches IH]; intros styles H; simpl; [exact H | ].
  apply IH. now apply revealCallback_Revealed.
Qed.

(** An intersecting entry reveals its target. *)
Lemma revealCallback_reveals entries styles e :
  In {| target := e; isIntersecting := true |} entries ->
  Revealed (revealCallback entries styles) e.
Proof.
  unfold revealCallback. revert styles.
  induction entries as [ | en entries IH]; intros styles Hin; [destruct Hin | ].
  destruct Hin as [Heq | Hin]; simpl.
  - subst en. apply (revealCallback_Revealed entries).
    unfold revealEntry, Revealed. simpl. rewrite styleOf_insert.
    now rewrite decide_True.
  - now apply IH.
Qed.

Lemma barOf_animateEntry s en e :
  barOf (animateEntry s en) e
  = if decide (isIntersecting en = true /\ target en = e)
    then animatedBar (barOf s e) else barOf s e.
Proof.
  unfold animateEntry. destruct (isIntersecting en) eqn:Hi.
  - unfold barOf at 1. simpl. destruct (decide (target en = e)) as [He | He].
    + rewrite decide_True by auto. subst e. now rewrite lookup_insert_eq.
    + rewrite decide_False by tauto. now rewrite lookup_insert_ne.
  - rewrite decide_False; [reflexivity | ]. intros [H _]. discriminate.
Qed.

Lemma animatedBy_cons en entries :
  animatedBy (en :: entries)
  = if isIntersecting en then target en :: animatedBy entries else animatedBy entries.
Proof.
  unfold animatedBy. rewrite filter_cons.
  now destruct (isIntersecting en).
Qed.

(** The callback in closed form: the bars it animates ... *)
Lemma barOf_skillCallback entries s e :
  barOf (skillCallback entries s) e
  = if decide (e ∈ animatedBy entries) then animatedBar (barOf s e) else barOf s e.
Proof.
  unfold skillCallback. revert s.
  induction entries as [ | en entries IH]; intros s.
  - reflexivity.
  - cbn [fold_left]. rewrite IH, barOf_animateEntry, animatedBy_cons.
    destruct (isIntersecting en) eqn:Hi.
    + destruct (decide (target en = e)) as [He | He].
      * rewrite (decide_True (P := _ /\ _)) by auto.
        rewrite (decide_True (P := e ∈ _ :: _)) by (subst e; apply list_elem_of_here).
        now destruct (decide (e ∈ animatedBy entries)).
      * rewrite (decide_False (P := _ /\ _)) by tauto.
        destruct (decide (e ∈ animatedBy entries)) as [Hin | Hin].
        -- rewrite decide_True by (now apply list_elem_of_further). reflexivity.
        -- rewrite decide_False; [reflexivity | ].
           intros H. apply elem_of_cons in H as [H | H]; auto.
    + rewrite (decide_False (P := _ /\ _)); [reflexivity | ].
      intros [H _]. discriminate.
Qed.

(** ... and the targets it stops observing. *)
Lemma observed_skillCallback entries s :
  observed (skillCallback entries s) = observed s ∖ list_to_set (animatedBy entries).
Proof.
  unfold skillCallback. revert s.
  induction entries as [ | en entries IH]; intros s.
  - simpl. set_solver.
  - cbn [fold_left]. rewrite IH, animatedBy_cons. unfold animateEntry.
    destruct (isIntersecting en); simpl; set_solver.
Qed.

Lemma reported_observed s b e : e ∈ animatedBy (reported s b) -> e ∈ observed s.
Proof.
  unfold animatedBy, reported. intros H.
  apply list_elem_of_fmap in H as (en & -> & Hen).
  apply list_elem_of_filter in Hen as [_ Hen].
  now apply list_elem_of_filter in Hen as [Hen _].
Qed.

Lemma notify_unobserves s b e :
  e ∈ animatedBy (reported s b) -> e ∉ observed (notify s b).
Proof.
  intros H. unfold notify. rewrite observed_skillCallback. set_solver.
Qed.

Lemma notify_observed_subset s b e : e ∈ observed (notify s b) -> e ∈ observed s.
Proof. unfold notify. rewrite observed_skillCallback. set_solver. Qed.

(** A bar that is not observed is left alone by a notification. *)
Lemma notify_unobserved_bar s b e : e ∉ observed s -> barOf (notify s b) e = barOf s e.
Proof.
  intros H. unfold notify. rewrite barOf_skillCallback.
  rewrite decide_False; [reflexivity | ].
  intros Hin. apply H. now apply reported_observed in Hin.
Qed.

Lemma skillRun_unobserved s batches e :
  e ∉ observed s ->
  barOf (skillRun s batches) e = barOf s e /\ fireCount e s batches = 0%nat.
Proof.
  unfold skillRun, fireCount. revert s.
  induction batches as [ | b batches IH]; intros s H; [now split | ].
  cbn [fold_left firings].
  assert (Hn : e ∉ observed (notify s b)).
  { intros Hin. apply H. now apply notify_observed_subset in Hin. }
  destruct (IH _ Hn) as [IHbar IHcount]. split.
  - rewrite IHbar. now apply notify_unobserved_bar.
  - rewrite filter_cons, decide_False; [exact IHcount | ].
    intros Hin. apply H. now apply reported_observed in Hin.
Qed.

Lemma notify_Animated s b e : Animated s e -> Animated (notify s b) e.
Proof.
  unfold Animated, notify. intros H. rewrite barOf_skillCallback.
  now destruct (decide (e ∈ animatedBy (reported s b))).
Qed.

Lemma skillRun_Animated s batches e : Animated s e -> Animated (skillRun s batches) e.
Proof.
  unfold skillRun. revert s.
  induction batches as [ | b batches IH]; intros s H; simpl; [exact H | ].
  apply IH. now apply notify_Animated.
Qed.

(** The notification that fires the animation of [e] animates it. *)
Lemma notify_fires s b e :
  e ∈ animatedBy (reported s b) -> barOf (notify s b) e = animatedBar (barOf s e).
Proof.
  intros H. unfold notify. rewrite barOf_skillCallback. now rewrite decide_True.
Qed.

Lemma fireCount_le_1 e s batches : (fireCount e s batches <= 1)%nat.
Proof.
  revert s. induction batches as [ | b batches IH]; intros s.
  - unfold fireCount. simpl. lia.
  - unfold fireCount. cbn [firings]. rewrite filter_cons.
    destruct (decide (e ∈ animatedBy (reported s b))) as [Hin | Hin].
    + apply notify_unobserves in Hin.
      apply (skillRun_unobserved _ batches) in Hin as [_ H0].
      unfold fireCount in H0. simpl. rewrite H0. lia.
    + apply IH.
Qed.

Example twoBars_run :
  let s := skillRun twoBars [[enters 1%nat]; [leaves 1%nat; enters 1%nat; leaves 2%nat]] in
  barOf s 1%nat
  = animatedBar (pendingBar "70")
  /\ progressWidth (barOf s 1%nat) = Some "70%"%string
  /\ barOf s 2%nat = pendingBar "90"
  /\ firings twoBars [[enters 1%nat]; [leaves 1%nat; enters 1%nat; leaves 2%nat]]
     = [[1%nat]; []].
Proof. vm_compute. auto. Qed.

(** C8. For every element and every sequence of observer notifications:
    a revealed element stays revealed and is never hidden again; an
    animated skill bar stays animated and is never pending again; the
    animation of a skill bar fires in at most one notification; and the
    notification in which it fires animates the bar and stops observing
    it, so that it fires exactly once and later notifications leave the
    bar as it is. *)
Theorem C8_one_way_transitions (e : elem) :
  (forall styles batches, Revealed styles e ->
     Revealed (revealRun styles batches) e /\ ~ Hidden (revealRun styles batches) e)
  /\ (forall s batches, Animated s e ->
       Animated (skillRun s batches) e /\ ~ Pending (skillRun s batches) e)
  /\ (forall s batches, (fireCount e s batches <= 1)%nat)
  /\ (forall s b bs, e ∈ animatedBy (reported s b) ->
       Animated (notify s b) e
       /\ (e ∉ observed (notify s b))
       /\ fireCount e s (b :: bs) = 1%nat
       /\ barOf (skillRun s (b :: bs)) e = animatedBar (barOf s e)).
Proof.
  split; [ | split; [ | split]].
  - intros styles batches H.
    pose proof (revealRun_Revealed batches styles e H) as HR. split; [exact HR | ].
    intros HH. now apply Hidden_not_Revealed in HH.
  - intros s batches H.
    pose proof (skillRun_Animated s batches e H) as HA. split; [exact HA | ].
    unfold Pending. unfold Animated in HA. rewrite HA. discriminate.
  - intros s batches. apply fireCount_le_1.
  - intros s b bs Hin.
    pose proof (notify_unobserves s b e Hin) as Hun.
    destruct (skillRun_unobserved (notify s b) bs e Hun) as [Hbar Hcount].
    split; [ | split; [exact Hun | split]].
    + unfold Animated. now rewrite notify_fires.
    + unfold fireCount in *. cbn [firings]. rewrite filter_cons, decide_True by exact Hin.
      simpl. now rewrite Hcount.
    + unfold skillRun in *. cbn [fold_left]. rewrite Hbar. now apply notify_fires.
Qed.

Lemma twoBars_fires_1 : 1%nat ∈ animatedBy (reported twoBars [enters 1%nat]).
Proof. apply (bool_decide_unpack _). vm_compute. exact I. Defined.

Lemma C8_witness :
  Animated (notify twoBars [enters 1%nat]) 1%nat
  /\ (1%nat ∉ observed (notify twoBars [enters 1%nat]))
  /\ fireCount 1%nat twoBars
       ([enters 1%nat] :: [[leaves 1%nat]; [enters 1%nat; enters 2%nat]]) = 1%nat
  /\ barOf (skillRun twoBars
              ([enters 1%nat] :: [[leaves 1%nat]; [enters 1%nat; enters 2%nat]])) 1%nat
     = animatedBar (barOf twoBars 1%nat).
Proof.
  apply (proj2 (proj2 (proj2 (C8_one_way_transitions 1%nat)))).
  exact twoBars_fires_1.
Defined.

End ScrollAnimationsFacts.


(** ** ContactForm: the validators *)

Section ValidatorFacts.
Import JS ContactForm.

Example trim_example : trim (lit "  Al ") = lit "Al" /\ trim tenSpaces = [].
Proof. split; reflexivity. Qed.

(** The regular expression of [validateEmail] accepts exactly the shape
    the specification describes. *)
Lemma emailRegex_shape s : Matches emailRegex s <-> emailShape s.
Proof.
  unfold emailRegex, emailShape, run_ok. split.
  - intros H.
    apply Matches_Seq in H as (l & r1 & -> & Hl & H).
    apply Matches_Seq in H as (a & r2 & -> & Ha & H).
    apply Matches_Seq in H as (d & r3 & -> & Hd & H).
    apply Matches_Seq in H as (dot & t & -> & Hdot & Ht).
    apply Matches_Chr in Ha as ->. apply Matches_Chr in Hdot as ->.
    apply Matches_Plus_Class in Hl, Hd, Ht.
    exists l, d, t. auto.
  - intros (l & d & t & -> & Hl & Hd & Ht).
    apply Matches_Plus_Class in Hl, Hd, Ht.
    apply Matches_Seq. exists l, (lit "@" ++ d ++ lit "." ++ t). repeat split; auto.
    apply Matches_Seq. exists (lit "@"), (d ++ lit "." ++ t). repeat split; auto.
    { now apply Matches_Chr. }
    apply Matches_Seq. exists d, (lit "." ++ t). repeat split; auto.
    apply Matches_Seq. exists (lit "."), t. repeat split; auto.
    now apply Matches_Chr.
Qed.

Lemma test_emailShape s : test emailRegex s = true <-> emailShape s.
Proof. rewrite test_Matches. apply emailRegex_shape. Qed.

Lemma emailShape_nonempty s : emailShape s -> s <> [].
Proof.
  intros (l & d & t & -> & [Hl _] & _) H.
  apply app_nil_both in H as [H _]. contradiction.
Qed.

Lemma length_zero_nil {A} (l : list A) : (length l =? 0)%nat = true <-> l = [].
Proof. destruct l; simpl; split; intros H; try reflexivity; discriminate. Qed.

Lemma nameVerdict_cases v :
  (nameVerdict v = Fails EmptyField <-> length (trim v) = 0%nat)
  /\ (nameVerdict v = Fails TooShort <-> (0 < length (trim v) < 2)%nat)
  /\ (nameVerdict v = Valid <-> (2 <= length (trim v))%nat).
Proof.
  unfold nameVerdict.
  destruct (Nat.eqb_spec (length (trim v)) 0) as [H0 | H0];
    [ | destruct (Nat.ltb_spec (length (trim v)) 2) as [H2 | H2]];
    (split; [ | split]); split; intros H; try reflexivity; try discriminate; lia.
Qed.

Lemma messageVerdict_cases v :
  (messageVerdict v = Fails EmptyField <-> length (trim v) = 0%nat)
  /\ (messageVerdict v = Fails TooShort <-> (0 < length (trim v) < 10)%nat)
  /\ (messageVerdict v = Valid <-> (10 <= length (trim v))%nat).
Proof.
  unfold messageVerdict.
  destruct (Nat.eqb_spec (length (trim v)) 0) as [H0 | H0];
    [ | destruct (Nat.ltb_spec (length (trim v)) 10) as [H2 | H2]];
    (split; [ | split]); split; intros H; try reflexivity; try discriminate; lia.
Qed.

Lemma emailVerdict_cases v :
  (emailVerdict v = Fails EmptyField <-> trim v = [])
  /\ (emailVerdict v = Fails InvalidFormat <-> trim v <> [] /\ ~ emailShape (trim v))
  /\ (emailVerdict v = Valid <-> emailShape (trim v)).
Proof.
  unfold emailVerdict.
  destruct (length (trim v) =? 0)%nat eqn:H0.
  - apply length_zero_nil in H0. repeat split; try discriminate; auto.
    + now intros [H _].
    + intros H. now apply emailShape_nonempty in H.
  - assert (Hne : trim v <> []).
    { intros H. apply length_zero_nil in H. congruence. }
    destruct (test emailRegex (trim v)) eqn:Ht.
    + apply test_emailShape in Ht.
      repeat split; try discriminate; auto; try contradiction.
      now intros [_ H].
    + assert (Hns : ~ emailShape (trim v)).
      { intros H. apply test_emailShape in H. congruence. }
      repeat split; try discriminate; auto; try contradiction.
Qed.

(** A validator shows the message of its verdict, or clears the error. *)
Lemma validate_outcome f st :
  validate f st = outcome f (verdictOf f (value (inputOf f st))) st.
Proof.
  destruct f; simpl.
  - unfold validateName, nameVerdict.
    destruct (length (trim (value (nameInput st))) =? 0)%nat; [reflexivity | ].
    now destruct (length (trim (value (nameInput st))) <? 2)%nat.
  - unfold validateEmail, emailVerdict.
    destruct (length (trim (value (emailInput st))) =? 0)%nat; [reflexivity | ].
    now destruct (test emailRegex (trim (value (emailInput st)))).
  - unfold validateMessage, messageVerdict.
    destruct (length (trim (value (messageInput st))) =? 0)%nat; [reflexivity | ].
    now destruct (length (trim (value (messageInput st))) <? 10)%nat.
Qed.

Lemma validate_fst f st : fst (validate f st) = isValid f (value (inputOf f st)).
Proof.
  rewrite validate_outcome. unfold isValid.
  now destruct (verdictOf f (value (inputOf f st))).
Qed.

(** C6. [validateName] fails with [EmptyField] when the trimmed value has
    length 0, with [TooShort] when that length is below 2, and succeeds
    otherwise; the empty string, ["A"] and ["Al"] give [EmptyField],
    [TooShort] and a valid name. *)
Theorem C6_validateName (st : State) :
  let v := value (nameInput st) in
  validateName st = outcome Name (nameVerdict v) st
  /\ (nameVerdict v = Fails EmptyField <-> length (trim v) = 0%nat)
  /\ (nameVerdict v = Fails TooShort <-> (0 < length (trim v) < 2)%nat)
  /\ (nameVerdict v = Valid <-> (2 <= length (trim v))%nat)
  /\ validateName (withValue Name (lit "") st)
     = (false, showError Name "Le nom est requis" (withValue Name (lit "") st))
  /\ validateName (withValue Name (lit "A") st)
     = (false, showError Name "Le nom doit contenir au moins 2 caractères"
                 (withValue Name (lit "A") st))
  /\ validateName (withValue Name (lit "Al") st)
     = (true, clearError Name (withValue Name (lit "Al") st)).
Proof.
  intros v. split; [apply (validate_outcome Name) | ].
  pose proof (nameVerdict_cases v) as (H1 & H2 & H3).
  repeat split; try tauto.
Qed.

(** C2, as the code has it.  [validateMessage] trims the value first: it
    fails with [EmptyField] when the trimmed value is empty, with
    [TooShort] when its length is below 10, and succeeds otherwise; a value
    whose trimmed length is at least 10 is valid, one of trimmed length 9
    is too short. *)
Theorem C2_validateMessage_trimmed (st : State) :
  let v := value (messageInput st) in
  validateMessage st = outcome Message (messageVerdict v) st
  /\ (messageVerdict v = Fails EmptyField <-> trim v = [])
  /\ (messageVerdict v = Fails TooShort <-> (0 < length (trim v) < 10)%nat)
  /\ (messageVerdict v = Valid <-> (10 <= length (trim v))%nat)
  /\ validateMessage (withValue Message (lit "Hello there!") st)
     = (true, clearError Message (withValue Message (lit "Hello there!") st))
  /\ validateMessage (withValue Message (lit "123456789") st)
     = (false, showError Message "Le message doit contenir au moins 10 caractères"
                 (withValue Message (lit "123456789") st)).
Proof.
  intros v. split; [apply (validate_outcome Message) | ].
  pose proof (messageVerdict_cases v) as (H1 & H2 & H3).
  repeat split; try tauto.
  - intros H. apply H1 in H. now destruct (trim v).
  - intros H. apply H1. now rewrite H.
Qed.

(** C2 fails as stated: ten spaces have length 10 and are rejected as
    empty, nine spaces have length 9 and are rejected as empty rather than
    as too short, and ["hi"] followed by eight spaces has length 10 and is
    rejected as too short. *)
Lemma C2_counterexample :
  (length tenSpaces = 10%nat
   /\ messageVerdictUntrimmed tenSpaces = Valid
   /\ validateMessage (withValue Message tenSpaces blank)
      = (false, showError Message "Le message est requis"
                  (withValue Message tenSpaces blank)))
  /\ (length nineSpaces = 9%nat
      /\ messageVerdictUntrimmed nineSpaces = Fails TooShort
      /\ validateMessage (withValue Message nineSpaces blank)
         = (false, showError Message "Le message est requis"
                     (withValue Message nineSpaces blank)))
  /\ (length paddedHi = 10%nat
      /\ messageVerdictUntrimmed paddedHi = Valid
      /\ validateMessage (withValue Message paddedHi blank)
         = (false, showError Message "Le message doit contenir au moins 10 caractères"
                     (withValue Message paddedHi blank))).
Proof. repeat split; reflexivity. Qed.

(** C7, as the code has it.  [validateEmail] trims the value first: it
    fails with [EmptyField] when the trimmed value is empty, with
    [InvalidFormat] when the trimmed value is not of the shape
    local [@] domain [.] tld (three non-empty runs of code units that are
    neither white space nor [@]), and succeeds otherwise; ["a@b.c"] is
    valid and ["abc"] has an invalid format. *)
Theorem C7_validateEmail_trimmed (st : State) :
  let v := value (emailInput st) in
  validateEmail st = outcome Email (emailVerdict v) st
  /\ (emailVerdict v = Fails EmptyField <-> trim v = [])
  /\ (emailVerdict v = Fails InvalidFormat <-> trim v <> [] /\ ~ emailShape (trim v))
  /\ (emailVerdict v = Valid <-> emailShape (trim v))
  /\ validateEmail (withValue Email (lit "a@b.c") st)
     = (true, clearError Email (withValue Email (lit "a@b.c") st))
  /\ validateEmail (withValue Email (lit "abc") st)
     = (false, showError Email "Veuillez entrer un email valide"
                 (withValue Email (lit "abc") st))
  /\ validateEmail (withValue Email (lit "") st)
     = (false, showError Email "L'email est requis" (withValue Email (lit "") st)).
Proof.
  intros v. split; [apply (validate_outcome Email) | ].
  pose proof (emailVerdict_cases v) as (H1 & H2 & H3).
  repeat split; try tauto.
Qed.

(** C7 fails as stated: a single space is not empty and does not have the
    shape, yet it is rejected as empty rather than as badly formed; and
    [" a@b.c "] does not have the shape, yet it is accepted. *)
Lemma C7_counterexample :
  (oneSpace <> []
   /\ ~ emailShape oneSpace
   /\ emailVerdictUntrimmed oneSpace = Fails InvalidFormat
   /\ validateEmail (withValue Email oneSpace blank)
      = (false, showError Email "L'email est requis" (withValue Email oneSpace blank)))
  /\ (~ emailShape paddedEmail
      /\ emailVerdictUntrimmed paddedEmail = Fails InvalidFormat
      /\ validateEmail (withValue Email paddedEmail blank)
         = (true, clearError Email (withValue Email paddedEmail blank))).
Proof.
  repeat split; try reflexivity; try discriminate.
  - intros H. apply test_emailShape in H. discriminate.
  - intros H. apply test_emailShape in H. discriminate.
Qed.

End ValidatorFacts.

(** ** ContactForm: error display and the submit handler *)

Section FormFacts.
Import JS ContactForm.

Lemma messageOf_nonempty f k : messageOf f k <> ""%string.
Proof. destruct f, k; discriminate. Qed.

(** What a validator leaves alone. *)
Lemma outcome_value f v st g :
  value (inputOf g (snd (outcome f v st))) = value (inputOf g st).
Proof. destruct v, f, g; reflexivity. Qed.

Lemma outcome_error_other f v st g :
  g <> f -> errorOf g (snd (outcome f v st)) = errorOf g st.
Proof. destruct v, f, g; try reflexivity; congruence. Qed.

Lemma outcome_rest f v st :
  let st' := snd (outcome f v st) in
  submitButton st' = submitButton st /\ formSuccess st' = formSuccess st
  /\ defaultValue st' = defaultValue st /\ awaiting st' = awaiting st
  /\ hideTimers st' = hideTimers st /\ alerts st' = alerts st
  /\ consoleErrors st' = consoleErrors st.
Proof. destruct v, f; simpl; repeat split. Qed.

(** What it does to the error element of its own field. *)
Lemma outcome_error f v st :
  errorOf f (snd (outcome f v st))
  = match v with
    | Valid => {| textContent := textContent (errorOf f st); visible := false |}
    | Fails k => {| textContent := messageOf f k; visible := true |}
    end.
Proof. destruct v, f; reflexivity. Qed.

Lemma displayed_outcome f v st :
  displayedError f (snd (outcome f v st)) <> ""%string <-> v <> Valid.
Proof.
  unfold displayedError. rewrite outcome_error. destruct v as [ | k]; simpl.
  - split; intros H; now elim H.
  - split; intros _; [discriminate | apply messageOf_nonempty].
Qed.

Lemma isValid_false f v : isValid f v = false <-> verdictOf f v <> Valid.
Proof.
  unfold isValid. destruct (verdictOf f v); split; intros H;
    try reflexivity; try discriminate; now elim H.
Qed.

Lemma validateName_outcome st :
  validateName st = outcome Name (nameVerdict (value (nameInput st))) st.
Proof. apply (validate_outcome Name). Qed.

Lemma validateEmail_outcome st :
  validateEmail st = outcome Email (emailVerdict (value (emailInput st))) st.
Proof. apply (validate_outcome Email). Qed.

Lemma validateMessage_outcome st :
  validateMessage st = outcome Message (messageVerdict (value (messageInput st))) st.
Proof. apply (validate_outcome Message). Qed.

(** The three validators of a submit, one after the other. *)
Lemma validateAll_eq st :
  validateAll st
  = snd (outcome Message (messageVerdict (value (messageInput st)))
      (snd (outcome Email (emailVerdict (value (emailInput st)))
        (snd (outcome Name (nameVerdict (value (nameInput st))) st))))).
Proof.
  unfold validateAll.
  rewrite validateMessage_outcome, validateEmail_outcome, validateName_outcome.
  change messageInput with (inputOf Message). change emailInput with (inputOf Email).
  now rewrite !outcome_value.
Qed.

Lemma validateAll_value st g :
  value (inputOf g (validateAll st)) = value (inputOf g st).
Proof. rewrite validateAll_eq. now rewrite !outcome_value. Qed.

Lemma validateAll_error st f :
  errorOf f (validateAll st)
  = errorOf f (snd (outcome f (verdictOf f (value (inputOf f st))) st)).
Proof.
  rewrite validateAll_eq.
  destruct f; cbn [verdictOf inputOf].
  - rewrite !outcome_error_other by discriminate. reflexivity.
  - rewrite outcome_error_other by discriminate.
    rewrite !outcome_error. rewrite outcome_error_other by discriminate. reflexivity.
  - rewrite !outcome_error. rewrite !outcome_error_other by discriminate. reflexivity.
Qed.

Lemma validateAll_rest st :
  submitButton (validateAll st) = submitButton st
  /\ formSuccess (validateAll st) = formSuccess st
  /\ defaultValue (validateAll st) = defaultValue st
  /\ awaiting (validateAll st) = awaiting st
  /\ hideTimers (validateAll st) = hideTimers st
  /\ alerts (validateAll st) = alerts st
  /\ consoleErrors (validateAll st) = consoleErrors st.
Proof.
  rewrite validateAll_eq.
  destruct (messageVerdict _), (emailVerdict _), (nameVerdict _); simpl; repeat split.
Qed.

Lemma validateAll_visible st f :
  visible (errorOf f (validateAll st)) = negb (isValid f (value (inputOf f st))).
Proof.
  rewrite validateAll_error, outcome_error. unfold isValid.
  now destruct (verdictOf f (value (inputOf f st))).
Qed.

Lemma validateAll_displayed st f :
  displayedError f (validateAll st) <> ""%string
  <-> isValid f (value (inputOf f st)) = false.
Proof.
  unfold displayedError. rewrite validateAll_error.
  change (displayedError f (snd (outcome f (verdictOf f (value (inputOf f st))) st))
          <> ""%string <-> isValid f (value (inputOf f st)) = false).
  rewrite displayed_outcome. symmetry. apply isValid_false.
Qed.

(** The handler up to its [await], in one equation. *)
Lemma handleSubmitStart_eq e st :
  handleSubmitStart e st
  = if allValid st
    then (preventDefault e, enterLoading (validateAll st), Suspended)
    else (preventDefault e, validateAll st, Returned).
Proof.
  unfold handleSubmitStart, allValid, validateAll.
  pose proof (validate_fst Name st) as Hn.
  pose proof (validate_fst Email (snd (validateName st))) as He.
  pose proof (validate_fst Message (snd (validateEmail (snd (validateName st))))) as Hm.
  cbn [validate inputOf] in Hn, He, Hm.
  assert (Ev : value (emailInput (snd (validateName st))) = value (emailInput st)).
  { rewrite validateName_outcome. apply (outcome_value Name _ st Email). }
  assert (Mv : value (messageInput (snd (validateEmail (snd (validateName st)))))
               = value (messageInput st)).
  { rewrite validateEmail_outcome, validateName_outcome.
    change messageInput with (inputOf Message). now rewrite !outcome_value. }
  rewrite Ev in He. rewrite Mv in Hm.
  destruct (validateName st) as [n st1]. cbn [fst snd] in *.
  destruct (validateEmail st1) as [m st2]. cbn [fst snd] in *.
  destruct (validateMessage st2) as [k st3]. cbn [fst snd] in *.
  subst n m k.
  destruct (isValid Name _), (isValid Email _), (isValid Message _); reflexivity.
Qed.

Lemma enterLoading_frame st :
  submitButton (enterLoading st) = loadingButton
  /\ (forall f, inputOf f (enterLoading st) = inputOf f st)
  /\ (forall f, errorOf f (enterLoading st) = errorOf f st).
Proof. repeat split; intros f; now destruct f. Qed.

(** The handler from its [await] on: it completes normally with the
    button reset, and never touches an error element. *)
Lemma handleSubmitResume_button s st :
  fst (handleSubmitResume s st) = Normal tt
  /\ submitButton (snd (handleSubmitResume s st)) = idleButton.
Proof.
  unfold handleSubmitResume, tryCatchFinally, mbind, M_bind, bind, await, showSuccess.
  destruct s as [ | err]; simpl.
  - destruct (formSuccess st); simpl; split; reflexivity.
  - split; reflexivity.
Qed.


(** A fulfilled submission shows the success element and resets the
    fields; a rejected one raises an alert and resets nothing. *)
Lemma handleSubmitResume_effects st f :
  (forall shown, formSuccess st = Some shown ->
     formSuccess (snd (handleSubmitResume Fulfilled st)) = Some true
     /\ value (inputOf f (snd (handleSubmitResume Fulfilled st))) = defaultValue st f
     /\ hideTimers (snd (handleSubmitResume Fulfilled st)) = S (hideTimers st)
     /\ alerts (snd (handleSubmitResume Fulfilled st)) = alerts st)
  /\ (forall err,
       value (inputOf f (snd (handleSubmitResume (Rejected err) st))) = value (inputOf f st)
       /\ alerts (snd (handleSubmitResume (Rejected err) st))
          = alerts st ++ ["Une erreur est survenue. Veuillez réessayer."%string]
       /\ consoleErrors (snd (handleSubmitResume (Rejected err) st))
          = consoleErrors st ++ [err]).
Proof.
  unfold handleSubmitResume, tryCatchFinally, mbind, M_bind, bind, await, showSuccess.
  split.
  - intros shown E. simpl. rewrite E. simpl. now destruct f.
  - intros err. simpl. now destruct f.
Qed.

(** C4. A call of the submit handler that passes validation disables the
    button and shows the loader, and suspends; however the awaited
    submission settles (fulfilled or rejected), and on whatever page the
    call resumes, the handler finishes normally with the button enabled,
    its label displayed and the loader hidden. *)
Theorem C4_cleanup_unconditional (e : SubmitEvent) (st : State) :
  allValid st = true ->
  handleSubmitStart e st = (preventDefault e, enterLoading (validateAll st), Suspended)
  /\ submitButton (enterLoading (validateAll st)) = loadingButton
  /\ (forall (s : Settlement) (st' : State),
        fst (handleSubmitResume s st') = Normal tt
        /\ submitButton (snd (handleSubmitResume s st')) = idleButton)
  /\ (forall s : Settlement, submitButton (snd (handleSubmit e s st)) = idleButton).
Proof.
  intros Hv. pose proof (handleSubmitStart_eq e st) as Hs. rewrite Hv in Hs.
  split; [exact Hs | split; [apply enterLoading_frame | split]].
  - intros s st'. apply handleSubmitResume_button.
  - intros s. unfold handleSubmit. rewrite Hs. simpl.
    apply handleSubmitResume_button.
Qed.

Lemma filled_allValid : allValid filled = true.
Proof. reflexivity. Defined.

Lemma C4_witness :
  handleSubmitStart {| defaultPrevented := false |} filled
  = (preventDefault {| defaultPrevented := false |},
     enterLoading (validateAll filled), Suspended)
  /\ submitButton (enterLoading (validateAll filled)) = loadingButton
  /\ (forall (s : Settlement) (st' : State),
        fst (handleSubmitResume s st') = Normal tt
        /\ submitButton (snd (handleSubmitResume s st')) = idleButton)
  /\ (forall s : Settlement,
        submitButton (snd (handleSubmit {| defaultPrevented := false |} s filled))
        = idleButton).
Proof. apply C4_cleanup_unconditional. exact filled_allValid. Defined.

(** C5. A submit runs the three validators, each on the page the previous
    one left.  When one of them fails, the handler returns there: the
    default action is prevented, the field values, the button, the success
    element, the calls in flight, the timers and the alerts are as before,
    and every invalid field (not only the first) shows its error. *)
Theorem C5_invalid_submit_aborts (e : SubmitEvent) (st : State) :
  allValid st = false ->
  handleSubmitStart e st = (preventDefault e, validateAll st, Returned)
  /\ defaultPrevented (preventDefault e) = true
  /\ (forall f, value (inputOf f (validateAll st)) = value (inputOf f st))
  /\ (submitButton (validateAll st) = submitButton st
      /\ formSuccess (validateAll st) = formSuccess st
      /\ defaultValue (validateAll st) = defaultValue st
      /\ awaiting (validateAll st) = awaiting st
      /\ hideTimers (validateAll st) = hideTimers st
      /\ alerts (validateAll st) = alerts st
      /\ consoleErrors (validateAll st) = consoleErrors st)
  /\ (forall f, visible (errorOf f (validateAll st))
                = negb (isValid f (value (inputOf f st))))
  /\ (forall f, displayedError f (validateAll st) <> ""%string
                <-> isValid f (value (inputOf f st)) = false)
  /\ (forall s : Settlement, handleSubmit e s st = (preventDefault e, validateAll st)).
Proof.
  intros Hv. pose proof (handleSubmitStart_eq e st) as Hs. rewrite Hv in Hs.
  split; [exact Hs | split; [reflexivity | split; [ | split; [ | split; [ | split]]]]].
  - intros f. apply validateAll_value.
  - apply validateAll_rest.
  - intros f. apply validateAll_visible.
  - intros f. apply validateAll_displayed.
  - intros s. unfold handleSubmit. now rewrite Hs.
Qed.

Lemma blank_not_allValid : allValid (withValue Name (lit "Jo") blank) = false.
Proof. reflexivity. Defined.

Lemma C5_witness :
  handleSubmitStart {| defaultPrevented := false |} (withValue Name (lit "Jo") blank)
  = (preventDefault {| defaultPrevented := false |},
     validateAll (withValue Name (lit "Jo") blank), Returned).
Proof.
  apply (C5_invalid_submit_aborts {| defaultPrevented := false |}
           (withValue Name (lit "Jo") blank)).
  exact blank_not_allValid.
Defined.

Example submit_shows_every_error :
  let st := validateAll (withValue Name (lit "Jo") blank) in
  displayedError Name st = ""%string
  /\ displayedError Email st = "L'email est requis"%string
  /\ displayedError Message st = "Le message est requis"%string.
Proof. repeat split. Qed.

(** C10. Whatever the page holds, valid or not, the submit handler has
    prevented the event's default action by the time it returns or
    suspends, and so has a whole call. *)
Theorem C10_default_always_prevented (e : SubmitEvent) (st : State) :
  fst (fst (handleSubmitStart e st)) = preventDefault e
  /\ defaultPrevented (fst (fst (handleSubmitStart e st))) = true
  /\ (forall s : Settlement, defaultPrevented (fst (handleSubmit e s st)) = true).
Proof.
  pose proof (handleSubmitStart_eq e st) as Hs.
  assert (H : fst (fst (handleSubmitStart e st)) = preventDefault e).
  { rewrite Hs. now destruct (allValid st). }
  split; [exact H | split; [now rewrite H | ]].
  intros s. unfold handleSubmit. rewrite Hs. now destruct (allValid st).
Qed.

(** *** The error display along a run of events *)


Lemma onBlur_eq f st :
  onBlur f st = snd (outcome f (verdictOf f (value (inputOf f st))) st).
Proof. unfold onBlur. now rewrite validate_outcome. Qed.













End FormFacts.

(** ** The rate limiters *)

Section TimerFacts.
Import Timers.
Context {A St : Type} (func : A -> St -> St).

(** In throttle with one reset timer pending, or idle with none. *)
Lemma throttleStep_settled (t : Throttled St) (ev : TEvent A) :
  (inThrottle t = true /\ resetTimers t = 1%nat)
  \/ (inThrottle t = false /\ resetTimers t = 0%nat) ->
  (inThrottle (throttleStep func t ev) = true
   /\ resetTimers (throttleStep func t ev) = 1%nat)
  \/ (inThrottle (throttleStep func t ev) = false
      /\ resetTimers (throttleStep func t ev) = 0%nat).
Proof.
  destruct t as [inner i r]. destruct ev as [a | ]; simpl;
    unfold throttleCall, throttleReset; simpl;
    intros [[-> ->] | [-> ->]]; simpl; auto.
Qed.

Lemma throttleRun_settled (t : Throttled St) (evs : list (TEvent A)) :
  (inThrottle t = true /\ resetTimers t = 1%nat)
  \/ (inThrottle t = false /\ resetTimers t = 0%nat) ->
  (inThrottle (throttleRun func t evs) = true
   /\ resetTimers (throttleRun func t evs) = 1%nat)
  \/ (inThrottle (throttleRun func t evs) = false
      /\ resetTimers (throttleRun func t evs) = 0%nat).
Proof.
  unfold throttleRun. revert t.
  induction evs as [ | ev evs IH]; intros t H; simpl; [exact H | ].
  apply IH. now apply throttleStep_settled.
Qed.

Lemma throttleRun_inner (t : Throttled St) (evs : list (TEvent A)) :
  t_inner (throttleRun func t evs)
  = fold_left (fun s a => func a s) (throttleExecuted func t evs) (t_inner t).
Proof.
  unfold throttleRun. revert t.
  induction evs as [ | ev evs IH]; intros t; simpl; [reflexivity | ].
  rewrite fold_left_app, IH. f_equal.
  destruct ev as [a | ]; simpl; unfold throttleCall, throttleReset.
  - now destruct (inThrottle t).
  - now destruct (resetTimers t).
Qed.

Lemma throttleExecuted_sublist (t : Throttled St) (evs : list (TEvent A)) :
  sublist (throttleExecuted func t evs) (callArgs evs).
Proof.
  revert t. induction evs as [ | ev evs IH]; intros t; simpl; [constructor | ].
  destruct ev as [a | ]; simpl.
  - destruct (inThrottle t); simpl.
    + apply sublist_cons, IH.
    + apply sublist_skip, IH.
  - apply IH.
Qed.

Lemma throttleExecuted_bound (t : Throttled St) (evs : list (TEvent A)) :
  (inThrottle t = true /\ resetTimers t = 1%nat)
  \/ (inThrottle t = false /\ resetTimers t = 0%nat) ->
  (length (throttleExecuted func t evs)
   <= (if inThrottle t then 0 else 1) + expiries evs)%nat.
Proof.
  revert t. induction evs as [ | ev evs IH]; intros t H.
  - simpl. lia.
  - pose proof (IH _ (throttleStep_settled t ev H)) as Hb.
    cbn [throttleExecuted]. rewrite length_app.
    destruct t as [inner i r].
    destruct H as [[Hi Hr] | [Hi Hr]]; simpl in Hi, Hr; subst i r;
      destruct ev as [a | ]; unfold expiries in *;
      cbn [throttleStep throttleCall throttleReset reaches inThrottle resetTimers
           negb length List.filter] in *;
      lia.
Qed.

(** X1. Rate limit of [throttle].  From a fresh throttled function and
    for every sequence of calls and timer expiries: the wrapped function
    has run on a subsequence of the calls, at most once more than timers
    have expired; the state it works on is the one these runs produce; and
    at most one reset timer is pending, exactly while the flag is set. *)
Theorem X1_throttle_rate_limit (s : St) (evs : list (TEvent A)) :
  let t := throttleRun func (throttleFresh s) evs in
  let ran := throttleExecuted func (throttleFresh s) evs in
  sublist ran (callArgs evs)
  /\ (length ran <= 1 + expiries evs)%nat
  /\ t_inner t = fold_left (fun s a => func a s) ran s
  /\ (resetTimers t <= 1)%nat
  /\ (inThrottle t = true <-> resetTimers t = 1%nat).
Proof.
  assert (H0 : (inThrottle (throttleFresh s) = true
                /\ resetTimers (throttleFresh s) = 1%nat)
               \/ (inThrottle (throttleFresh s) = false
                   /\ resetTimers (throttleFresh s) = 0%nat)) by (right; auto).
  simpl. split; [apply throttleExecuted_sublist | ].
  split; [apply (throttleExecuted_bound _ evs H0) | ].
  split; [apply throttleRun_inner | ].
  destruct (throttleRun_settled _ evs H0) as [[Hi Hr] | [Hi Hr]];
    rewrite Hi, Hr; split; try lia; split; intros; congruence.
Qed.

Lemma throttleCall_burst (t : Throttled St) (a : A) (calls : list A) :
  throttleRun func (throttleCall func a t) (TCall <$> calls) = throttleCall func a t.
Proof.
  unfold throttleRun.
  assert (Hi : inThrottle (throttleCall func a t) = true).
  { unfold throttleCall. now destruct (inThrottle t) eqn:E. }
  revert Hi. generalize (throttleCall func a t) as t'.
  induction calls as [ | b calls IH]; intros t' Hi; simpl; [reflexivity | ].
  unfold throttleCall. rewrite Hi. simpl. now apply IH.
Qed.

(** X2. [throttle] drops trailing calls.  Whatever the state, of a burst
    of calls with no timer expiry in between only the first can run the
    wrapped function; the others change nothing, and an expiring timer
    never runs it either, so the last call of a burst is lost. *)
Theorem X2_throttle_drops_trailing (t : Throttled St) (a : A) (calls : list A) :
  throttleRun func t (TCall a :: (TCall <$> calls)) = throttleCall func a t
  /\ throttleExecuted func t (TCall a :: (TCall <$> calls))
     = (if inThrottle t then [] else [a])
  /\ t_inner (throttleRun func t (TCall a :: (TCall <$> calls) ++ [TTimer]))
     = t_inner (throttleCall func a t).
Proof.
  split; [ | split].
  - apply throttleCall_burst.
  - cbn [throttleExecuted throttleStep reaches].
    assert (Hi : inThrottle (throttleCall func a t) = true).
    { unfold throttleCall. now destruct (inThrottle t) eqn:E. }
    assert (Hnil : forall t', inThrottle t' = true ->
                     throttleExecuted func t' (TCall <$> calls) = []).
    { induction calls as [ | b calls IH]; intros t' Ht'; simpl; [reflexivity | ].
      rewrite Ht'. simpl. apply IH. unfold throttleCall. now rewrite Ht'. }
    rewrite (Hnil _ Hi). rewrite app_nil_r. now destruct (inThrottle t).
  - unfold throttleRun. cbn [fold_left]. rewrite fold_left_app.
    change (fold_left (throttleStep func) (TCall <$> calls) (throttleStep func t (TCall a)))
      with (throttleRun func (throttleCall func a t) (TCall <$> calls)).
    rewrite throttleCall_burst. simpl. unfold throttleReset.
    now destruct (resetTimers (throttleCall func a t)).
Qed.

(** At most one timer is live, and it is the one [timeout] names. *)
Lemma debounceStep_single (d : Debounced A St) (ev : DEvent A) :
  liveTimers d = ∅
  \/ (exists id a, timeout d = Some id /\ liveTimers d = {[ id := a ]}) ->
  liveTimers (debounceStep func d ev) = ∅
  \/ (exists id a, timeout (debounceStep func d ev) = Some id
                   /\ liveTimers (debounceStep func d ev) = {[ id := a ]}).
Proof.
  intros H. destruct ev as [a | id]; simpl.
  - right. exists (nextTimer d), a. split; [reflexivity | ].
    unfold debounceCall. simpl.
    destruct H as [H | (id & b & Ht & H)]; rewrite H.
    + destruct (timeout d); simpl; [rewrite delete_empty | ]; reflexivity.
    + rewrite Ht. simpl. rewrite delete_singleton_eq. reflexivity.
  - unfold debounceFire.
    destruct (liveTimers d !! id) as [b | ] eqn:E; [ | exact H].
    left. simpl.
    destruct H as [H | (id' & b' & Ht & H)]; rewrite H in *.
    + rewrite lookup_empty in E. discriminate.
    + apply lookup_singleton_Some in E as [-> ->].
      rewrite Ht. simpl. rewrite delete_singleton_eq. apply delete_empty.
Qed.

Lemma debounceRun_single (d : Debounced A St) (evs : list (DEvent A)) :
  liveTimers d = ∅
  \/ (exists id a, timeout d = Some id /\ liveTimers d = {[ id := a ]}) ->
  liveTimers (debounceRun func d evs) = ∅
  \/ (exists id a, timeout (debounceRun func d evs) = Some id
                   /\ liveTimers (debounceRun func d evs) = {[ id := a ]}).
Proof.
  unfold debounceRun. revert d.
  induction evs as [ | ev evs IH]; intros d H; simpl; [exact H | ].
  apply IH. now apply debounceStep_single.
Qed.

Lemma debounceCall_pending (d : Debounced A St) (a : A) :
  liveTimers d = ∅
  \/ (exists id b, timeout d = Some id /\ liveTimers d = {[ id := b ]}) ->
  d_inner (debounceCall a d) = d_inner d
  /\ timeout (debounceCall a d) = Some (nextTimer d)
  /\ liveTimers (debounceCall a d) = {[ nextTimer d := a ]}.
Proof.
  intros H. unfold debounceCall. simpl. repeat split.
  destruct H as [H | (id & b & Ht & H)]; rewrite H.
  - destruct (timeout d); simpl; [rewrite delete_empty | ]; reflexivity.
  - rewrite Ht. simpl. rewrite delete_singleton_eq. reflexivity.
Qed.

Lemma debounce_burst_inner (d : Debounced A St) (calls : list A) :
  d_inner (debounceRun func d (DCall <$> calls)) = d_inner d.
Proof.
  unfold debounceRun. revert d.
  induction calls as [ | b calls IH]; intros d; simpl; [reflexivity | ].
  now rewrite IH.
Qed.

(** X3. [debounce] runs the last call of a burst.  After any history, a
    burst of calls leaves the wrapped state untouched and exactly one live
    timer, the one [timeout] names, holding the arguments of the last
    call; when that timer expires the wrapped function runs once, on those
    arguments, and no timer is left; no other handle can expire. *)
Theorem X3_debounce_runs_last_call (s : St) (evs : list (DEvent A))
    (calls : list A) (a : A) :
  let d := debounceRun func (debounceFresh s) evs in
  let d' := debounceRun func d (DCall <$> (calls ++ [a])) in
  d_inner d' = d_inner d
  /\ (exists id,
        timeout d' = Some id
        /\ liveTimers d' = {[ id := a ]}
        /\ debounceFire func id d'
           = {| d_inner := func a (d_inner d); timeout := Some id;
                liveTimers := ∅; nextTimer := nextTimer d' |})
  /\ (forall id, timeout d' <> Some id -> debounceFire func id d' = d').
Proof.
  intros d d'.
  assert (Hd : liveTimers d = ∅
               \/ (exists id b, timeout d = Some id /\ liveTimers d = {[ id := b ]})).
  { apply debounceRun_single. now left. }
  assert (Hin : d_inner d' = d_inner d) by apply debounce_burst_inner.
  set (d1 := debounceRun func d (DCall <$> calls)).
  assert (Hd1 : liveTimers d1 = ∅
                \/ (exists id b, timeout d1 = Some id /\ liveTimers d1 = {[ id := b ]})).
  { now apply debounceRun_single. }
  assert (Hd' : d' = debounceCall a d1).
  { unfold d', d1, debounceRun. rewrite fmap_app, fold_left_app. reflexivity. }
  destruct (debounceCall_pending d1 a Hd1) as (_ & Ht & Hl).
  rewrite <- Hd' in Ht, Hl.
  split; [exact Hin | split].
  - exists (nextTimer d1). split; [exact Ht | split; [exact Hl | ]].
    unfold debounceFire. rewrite Hl, lookup_singleton_eq, Ht. simpl.
    rewrite delete_singleton_eq, delete_empty, Hin. reflexivity.
  - intros id Hne. unfold debounceFire. rewrite Hl.
    rewrite lookup_singleton_ne; [reflexivity | ].
    intros Heq. apply Hne. rewrite Ht. now f_equal.
Qed.

(** The arguments held by the live timers. *)
Lemma debounceExecuted_sublist_from (d : Debounced A St) (evs : list (DEvent A)) :
  liveTimers d = ∅
  \/ (exists id a, timeout d = Some id /\ liveTimers d = {[ id := a ]}) ->
  sublist (debounceExecuted func d evs)
    ((map_to_list (liveTimers d)).*2 ++ omap (fun ev => match ev with
                                                     | DCall a => Some a
                                                     | DExpire _ => None
                                                     end) evs).
Proof.
  revert d. induction evs as [ | ev evs IH]; intros d H.
  - simpl. apply sublist_nil_l.
  - pose proof (IH _ (debounceStep_single d ev H)) as Hs.
    cbn [debounceExecuted omap list_omap]. destruct ev as [a | id].
    + cbn [runsOn debounceStep] in *. simpl.
      destruct (debounceCall_pending d a H) as (_ & _ & Hl).
      rewrite Hl, map_to_list_singleton in Hs. simpl in Hs.
      now apply sublist_inserts_l.
    + cbn [runsOn debounceStep] in *.
      unfold debounceFire in *.
      destruct (liveTimers d !! id) as [b | ] eqn:E; [ | exact Hs].
      destruct H as [H | (id' & b' & Ht & H)].
      * rewrite H, lookup_empty in E. discriminate.
      * rewrite H in E. apply lookup_singleton_Some in E as [-> ->].
        rewrite H, map_to_list_singleton. simpl in *.
        rewrite Ht, H in Hs. simpl in Hs.
        rewrite delete_singleton_eq, delete_empty, map_to_list_empty in Hs.
        simpl in Hs. rewrite Ht. simpl. rewrite delete_singleton_eq, delete_empty.
        now apply sublist_skip.
Qed.

(** X4. [debounce] never runs a call twice.  From a fresh debounced
    function and for every sequence of calls and timer expiries, the
    arguments the wrapped function runs on form a subsequence of the
    arguments of the calls, and at most one timer is ever live. *)
Theorem X4_debounce_at_most_once_per_call (s : St) (evs : list (DEvent A)) :
  sublist (debounceExecuted func (debounceFresh s) evs)
    (omap (fun ev => match ev with DCall a => Some a | DExpire _ => None end) evs)
  /\ (size (liveTimers (debounceRun func (debounceFresh s) evs)) <= 1)%nat.
Proof.
  split.
  - apply (debounceExecuted_sublist_from (debounceFresh s) evs). now left.
  - destruct (debounceRun_single (debounceFresh s) evs) as [H | (id & a & _ & H)];
      [now left | | ]; rewrite H.
    + rewrite map_size_empty. lia.
    + rewrite map_size_singleton. lia.
Qed.

End TimerFacts.

(** ** Navigation: scrolled bar, smooth scrolling, menu *)

Section ScrollingFacts.
Import Navigation Scrolling Timers.

Lemma scrollBehavior_overwrites (ys : list Q) (b : bool) :
  fold_left (fun s y => scrollBehavior y s) ys b
  = match last ys with
    | Some y => negb (Qle_bool y 50)
    | None => b
    end.
Proof.
  revert b. induction ys as [ | y ys IH]; intros b; [reflexivity | ].
  cbn [fold_left]. rewrite IH, last_cons.
  destruct (last ys); [reflexivity | ].
  unfold scrollBehavior. now destruct (Qle_bool y 50).
Qed.

(** X5. The bar's [scrolled] class under the throttle.  After any
    sequence of scroll events and timer expiries, the class is the
    outcome of the last scroll event that got through the throttle: set
    exactly when that event's offset exceeds 50; with no such event it is
    as the page loaded it.  Events inside the cool-down do not count. *)
Theorem X5_scrolled_class_follows_last_run (b : bool) (evs : list (TEvent Q)) :
  t_inner (throttleRun scrollBehavior (throttleFresh b) evs)
  = match last (throttleExecuted scrollBehavior (throttleFresh b) evs) with
    | Some y => negb (Qle_bool y 50)
    | None => b
    end
  /\ forall y : Q, negb (Qle_bool y 50) = true <-> (50 < y)%Q.
Proof.
  split.
  - rewrite throttleRun_inner. apply scrollBehavior_overwrites.
  - intros y. rewrite negb_true_iff, <- not_true_iff_false, Qle_bool_iff.
    split; [apply Qnot_le_lt | apply Qlt_not_le].
Qed.

(** At the offset a smooth scroll to [s] aims for, a section is past its
    threshold exactly when it starts at most 120 pixels below [s]. *)
Lemma crossed_at_landing (s s' : SectionEl) :
  crossed (inject_Z (offsetTop s - 80)) s' = true
  <-> offsetTop s' <= offsetTop s + 120.
Proof.
  rewrite crossed_iff, <- Zle_Qle. lia.
Qed.

Lemma not_crossed_at_landing (s s' : SectionEl) :
  offsetTop s + 120 < offsetTop s' ->
  crossed (inject_Z (offsetTop s - 80)) s' = false.
Proof.
  intros H. apply not_true_iff_false. rewrite crossed_at_landing. lia.
Qed.

(** X6. Smooth scrolling highlights its target.  A click on a link whose
    [href] starts with [#] and selects the section [s] prevents the
    default jump and scrolls to 80 pixels above [s]; once the page is
    there the scroll handler makes [s] the active section, provided every
    later section starts more than 120 pixels below [s]. *)
Theorem X6_smooth_scroll_highlights_target
    (querySelector : string -> QueryResult) (h : string)
    (before after : list SectionEl) (s : SectionEl) :
  startsWithHash h = true ->
  querySelector h = Found (offsetTop s) ->
  Forall (fun s' => offsetTop s + 120 < offsetTop s') after ->
  onSmoothClick querySelector (Some h)
  = {| clickPrevented := true; scrollTarget := Some (offsetTop s - 80); threw := false |}
  /\ scanSections (inject_Z (offsetTop s - 80)) (before ++ s :: after) = sec_id s.
Proof.
  intros Hh Hq Hafter. split.
  - unfold onSmoothClick. now rewrite Hh, Hq.
  - apply scan_last.
    + apply crossed_at_landing. lia.
    + eapply Forall_impl; [exact Hafter | ].
      intros s' Hs'. now apply not_crossed_at_landing.
Qed.

Lemma X6_witness :
  onSmoothClick (fun _ => Found 600) (Some "#about"%string)
  = {| clickPrevented := true; scrollTarget := Some (600 - 80); threw := false |}
  /\ scanSections (inject_Z (600 - 80)) twoSections = "about"%string.
Proof.
  apply (X6_smooth_scroll_highlights_target (fun _ => Found 600) "#about"
           [ {| sec_id := "home"; offsetTop := 0; clientHeight := 600 |} ] []
           {| sec_id := "about"; offsetTop := 600; clientHeight := 700 |}).
  - reflexivity.
  - reflexivity.
  - constructor.
Defined.

(** X7. A short section loses the highlight.  When a later section [s']
    starts at most 120 pixels below the target [s] of a smooth scroll, and
    the sections after [s'] start more than 120 pixels below [s], the
    scroll handler at the landing offset makes [s'] the active section,
    not [s]. *)
Theorem X7_smooth_scroll_short_section
    (before between after : list SectionEl) (s s' : SectionEl) :
  offsetTop s' <= offsetTop s + 120 ->
  Forall (fun s'' => offsetTop s + 120 < offsetTop s'') after ->
  scanSections (inject_Z (offsetTop s - 80)) (before ++ s :: between ++ s' :: after)
  = sec_id s'.
Proof.
  intros Hs' Hafter.
  replace (before ++ s :: between ++ s' :: after)
    with ((before ++ s :: between) ++ s' :: after)
    by (rewrite <- app_assoc; reflexivity).
  apply scan_last.
  - now apply crossed_at_landing.
  - eapply Forall_impl; [exact Hafter | ].
    intros s'' Hs''. now apply not_crossed_at_landing.
Qed.

Lemma X7_witness :
  scanSections (inject_Z (0 - 80))
    ([] ++ {| sec_id := "hero"; offsetTop := 0; clientHeight := 100 |}
        :: [] ++ {| sec_id := "about"; offsetTop := 100; clientHeight := 700 |} :: [])
  = "about"%string.
Proof.
  apply (X7_smooth_scroll_short_section [] [] []
           {| sec_id := "hero"; offsetTop := 0; clientHeight := 100 |}
           {| sec_id := "about"; offsetTop := 100; clientHeight := 700 |}).
  - simpl. lia.
  - constructor.
Defined.

Lemma crossed_mono (S S' : Q) (s : SectionEl) :
  (S <= S')%Q -> crossed S s = true -> crossed S' s = true.
Proof.
  rewrite !crossed_iff. intros H1 H2. now apply (Qle_trans _ S).
Qed.

Lemma crossed_earlier (S : Q) (s s' : SectionEl) :
  offsetTop s <= offsetTop s' -> crossed S s' = true -> crossed S s = true.
Proof.
  rewrite !crossed_iff. intros H1 H2.
  apply (Qle_trans _ (inject_Z (offsetTop s' - 200))); [ | exact H2].
  rewrite <- Zle_Qle. lia.
Qed.

Lemma filter_length_mono {B} (p q : B -> bool) (l : list B) :
  (forall x, p x = true -> q x = true) ->
  (length (List.filter p l) <= length (List.filter q l))%nat.
Proof.
  intros H. induction l as [ | x l IH]; simpl; [lia | ].
  destruct (p x) eqn:Hp.
  - rewrite (H x Hp). simpl. lia.
  - destruct (q x); simpl; lia.
Qed.

(** X8. The highlight only moves forward.  When the sections are in the
    order of their top offsets, those past their threshold at offset [S]
    are exactly the first [k] sections, for [k] the number the scroll
    handler's test accepts; the active section is the id of the last of
    these; and [k] does not shrink when the offset grows. *)
Theorem X8_highlight_moves_forward (S S' : Q) (sections : list SectionEl) :
  offsetSorted sections ->
  let k := length (List.filter (crossed S) sections) in
  List.filter (crossed S) sections = take k sections
  /\ scanSections S sections = default ""%string (last (sec_id <$> take k sections))
  /\ ((S <= S')%Q -> (k <= length (List.filter (crossed S') sections))%nat).
Proof.
  intros Hsorted k.
  assert (Hp : List.filter (crossed S) sections = take k sections).
  { subst k. induction Hsorted as [ | s l Hl IH Hall]; [reflexivity | ].
    simpl. destruct (crossed S s) eqn:Hs.
    - simpl. now rewrite <- IH.
    - replace (List.filter (crossed S) l) with (@nil SectionEl); [reflexivity | ].
      symmetry. clear IH Hl. induction Hall as [ | s' l Hs' _ IH']; [reflexivity | ].
      simpl. destruct (crossed S s') eqn:Hc; [ | exact IH'].
      apply (crossed_earlier S s s' Hs') in Hc. congruence. }
  split; [exact Hp | split].
  - unfold scanSections. rewrite scan_fold. now rewrite Hp.
  - intros HS. apply filter_length_mono. intros s. now apply crossed_mono.
Qed.

Lemma twoSections_sorted : offsetSorted twoSections.
Proof.
  unfold offsetSorted, twoSections.
  repeat constructor; simpl; lia.
Defined.

Lemma X8_witness :
  List.filter (crossed 450) twoSections
  = take (length (List.filter (crossed 450) twoSections)) twoSections
  /\ scanSections 450 twoSections
     = default ""%string
         (last (sec_id <$> take (length (List.filter (crossed 450) twoSections))
                             twoSections))
  /\ ((450 <= 900)%Q ->
      (length (List.filter (crossed 450) twoSections)
       <= length (List.filter (crossed 900) twoSections))%nat).
Proof. apply (X8_highlight_moves_forward 450 900 twoSections twoSections_sorted). Defined.

Lemma listeners_open (path : list ClickListener) (m : Menu) :
  menuActive (fold_left (fun m l => runListener l m) path m) = true ->
  menuActive m = true \/ In ToggleListener path.
Proof.
  revert m. induction path as [ | l path IH]; intros m H; simpl in *; [now left | ].
  apply IH in H as [H | H]; [ | now right; right].
  destruct l; simpl in H.
  - right. now left.
  - discriminate.
Qed.

(** X9. Only the toggle opens the menu.  If the menu is closed before an
    event and open after it, the event is a click that reached the toggle
    button's listener and whose target lies inside the navigation bar; no
    key press and no other click opens it. *)
Theorem X9_menu_opens_only_by_toggle (m : Menu) (e : Event) :
  menuActive m = false ->
  menuActive (step m e) = true ->
  exists path, e = Click path true /\ In ToggleListener path.
Proof.
  intros Hclosed Hopen. destruct e as [path inNav | key]; simpl in Hopen.
  - destruct inNav; simpl in Hopen; [ | discriminate].
    exists path. split; [reflexivity | ].
    apply listeners_open in Hopen as [Hopen | Hin]; [congruence | exact Hin].
  - unfold onKeyDown in Hopen. case_bool_decide.
    + rewrite Hclosed in Hopen. congruence.
    + congruence.
Qed.

Lemma X9_witness :
  exists path, toggleClick true = Click path true /\ In ToggleListener path.
Proof.
  apply (X9_menu_opens_only_by_toggle closedMenu (toggleClick true)); reflexivity.
Defined.

(** X10. Toggling never repairs a mismatch.  A click on the toggle keeps
    the attribute and the class in step when they were, and out of step
    when they were not; a second click restores the class; and the toggle
    alternates between two states from the first click on. *)
Theorem X10_toggle_keeps_agreement (m : Menu) :
  (inSync (onToggleClick m) <-> inSync m)
  /\ menuActive (onToggleClick (onToggleClick m)) = menuActive m
  /\ onToggleClick (onToggleClick (onToggleClick m)) = onToggleClick m.
Proof.
  destruct m as [aria act foc]. unfold inSync, onToggleClick. simpl.
  split; [ | split].
  - case_bool_decide as Ha; destruct act; simpl; split; intros [H1 H2];
      split; intros H; try discriminate; try congruence;
      try (exfalso; apply Ha; now apply H2);
      try (specialize (H1 Ha); discriminate);
      try (specialize (H1 eq_refl); discriminate);
      try (specialize (H2 eq_refl); discriminate).
  - now destruct act.
  - destruct (bool_decide (aria = Some "true"%string)); destruct act; reflexivity.
Qed.

End ScrollingFacts.

(** ** ScrollAnimations: who gets revealed, who gets animated *)

Section IntersectionFacts.
Import ScrollAnimations Intersections.

Lemma styleOf_hideAll els styles e :
  styleOf (hideAll els styles) e
  = if decide (e ∈ els) then hiddenStyle else styleOf styles e.
Proof.
  unfold hideAll. revert styles.
  induction els as [ | x els IH]; intros styles; [reflexivity | ].
  cbn [fold_left]. rewrite IH, styleOf_insert.
  destruct (decide (e ∈ els)) as [Hin | Hin].
  - rewrite decide_True by (now apply list_elem_of_further). reflexivity.
  - destruct (decide (x = e)) as [-> | Hne].
    + rewrite decide_True by apply list_elem_of_here. reflexivity.
    + rewrite decide_False; [reflexivity | ].
      intros H. apply elem_of_cons in H as [H | H]; [congruence | contradiction].
Qed.

Lemma styleOf_revealCallback entries styles e :
  styleOf (revealCallback entries styles) e
  = if decide (e ∈ animatedBy entries)
    then {| opacity := "1"; transform := "translateY(0)";
            transition := transition (styleOf styles e) |}
    else styleOf styles e.
Proof.
  unfold revealCallback. revert styles.
  induction entries as [ | en entries IH]; intros styles; [reflexivity | ].
  cbn [fold_left]. rewrite IH, animatedBy_cons. unfold revealEntry.
  destruct (isIntersecting en) eqn:Hi.
  - rewrite styleOf_insert.
    destruct (decide (target en = e)) as [<- | He].
    + rewrite (decide_True (P := target en ∈ _ :: _)) by apply list_elem_of_here.
      now destruct (decide (target en ∈ animatedBy entries)).
    + destruct (decide (e ∈ animatedBy entries)) as [Hin | Hin].
      * rewrite decide_True by (now apply list_elem_of_further). reflexivity.
      * rewrite decide_False; [reflexivity | ].
        intros H. apply elem_of_cons in H as [H | H]; [congruence | contradiction].
  - reflexivity.
Qed.

Lemma revealRun_shown batches styles e :
  styleOf styles e = shownStyle -> styleOf (revealRun styles batches) e = shownStyle.
Proof.
  unfold revealRun. revert styles.
  induction batches as [ | b batches IH]; intros styles H; [exact H | ].
  cbn [fold_left]. apply IH. rewrite styleOf_revealCallback, H.
  now destruct (decide (e ∈ animatedBy b)).
Qed.

Lemma revealRun_hidden batches styles e :
  styleOf styles e = hiddenStyle ->
  (everIntersects e batches -> styleOf (revealRun styles batches) e = shownStyle)
  /\ (~ everIntersects e batches -> styleOf (revealRun styles batches) e = hiddenStyle).
Proof.
  unfold everIntersects. revert styles.
  induction batches as [ | b batches IH]; intros styles H.
  - split; [intros He; inversion He | intros _; exact H].
  - unfold revealRun. cbn [fold_left].
    change (fold_left (fun styles b => revealCallback b styles) batches
              (revealCallback b styles))
      with (revealRun (revealCallback b styles) batches).
    destruct (decide (e ∈ animatedBy b)) as [Hb | Hb].
    + assert (Hs : styleOf (revealCallback b styles) e = shownStyle).
      { rewrite styleOf_revealCallback, decide_True, H by exact Hb. reflexivity. }
      split; [intros _; now apply revealRun_shown | ].
      intros Hn. exfalso. apply Hn. now apply Exists_cons_hd.
    + assert (Hs : styleOf (revealCallback b styles) e = hiddenStyle).
      { rewrite styleOf_revealCallback, decide_False by exact Hb. exact H. }
      destruct (IH _ Hs) as [IH1 IH2]. split.
      * intros He. apply IH1. inversion He; subst; [contradiction | assumption].
      * intros Hn. apply IH2. intros He. apply Hn. now apply Exists_cons_tl.
Qed.

(** X11. Who gets revealed.  An element hidden by the set-up is revealed
    after a sequence of notifications exactly when one of them reported it
    as intersecting, and is still hidden exactly when none did; either way
    it keeps the transition the set-up gave it. *)
Theorem X11_revealed_iff_intersected
    (els : list elem) (styles : gmap elem Style) (batches : list (list Entry))
    (e : elem) :
  e ∈ els ->
  (Revealed (revealRun (hideAll els styles) batches) e <-> everIntersects e batches)
  /\ (Hidden (revealRun (hideAll els styles) batches) e <-> ~ everIntersects e batches)
  /\ transition (styleOf (revealRun (hideAll els styles) batches) e)
     = "opacity 0.6s ease, transform 0.6s ease"%string.
Proof.
  intros Hin.
  assert (H0 : styleOf (hideAll els styles) e = hiddenStyle).
  { rewrite styleOf_hideAll. now rewrite decide_True. }
  destruct (revealRun_hidden batches _ e H0) as [Hyes Hno].
  unfold Revealed, Hidden.
  destruct (decide (everIntersects e batches)) as [He | He].
  - rewrite (Hyes He). simpl.
    split; [split; [intros _; exact He | intros _; split; reflexivity] | ].
    split; [ | reflexivity].
    split; [intros [H _]; discriminate | intros H; contradiction].
  - rewrite (Hno He). simpl.
    split; [split; [intros [H _]; discriminate | intros H; contradiction] | ].
    split; [ | reflexivity].
    split; [intros _; exact He | intros _; split; reflexivity].
Qed.

Lemma X11_witness :
  (Revealed (revealRun (hideAll [3%nat] ∅) [[leaves 3%nat]; [enters 3%nat]]) 3%nat
   <-> everIntersects 3%nat [[leaves 3%nat]; [enters 3%nat]])
  /\ (Hidden (revealRun (hideAll [3%nat] ∅) [[leaves 3%nat]; [enters 3%nat]]) 3%nat
      <-> ~ everIntersects 3%nat [[leaves 3%nat]; [enters 3%nat]])
  /\ transition (styleOf (revealRun (hideAll [3%nat] ∅)
                            [[leaves 3%nat]; [enters 3%nat]]) 3%nat)
     = "opacity 0.6s ease, transform 0.6s ease"%string.
Proof.
  apply (X11_revealed_iff_intersected [3%nat] ∅ [[leaves 3%nat]; [enters 3%nat]] 3%nat).
  apply list_elem_of_here.
Defined.

Lemma animatedBy_reported s b e :
  e ∈ observed s -> (e ∈ animatedBy (reported s b) <-> e ∈ animatedBy b).
Proof.
  intros Hobs. unfold animatedBy, reported. rewrite !list_elem_of_fmap. split.
  - intros (en & -> & Hen). exists en. split; [reflexivity | ].
    apply list_elem_of_filter in Hen as [Hi Hen].
    apply list_elem_of_filter in Hen as [_ Hen].
    apply list_elem_of_filter. auto.
  - intros (en & -> & Hen). exists en. split; [reflexivity | ].
    apply list_elem_of_filter in Hen as [Hi Hen].
    apply list_elem_of_filter. split; [exact Hi | ].
    apply list_elem_of_filter. auto.
Qed.

Lemma skillRun_observed_pending batches s e :
  e ∈ observed s ->
  (everIntersects e batches ->
     barOf (skillRun s batches) e = animatedBar (barOf s e)
     /\ e ∉ observed (skillRun s batches))
  /\ (~ everIntersects e batches ->
     barOf (skillRun s batches) e = barOf s e
     /\ e ∈ observed (skillRun s batches)).
Proof.
  unfold everIntersects. revert s.
  induction batches as [ | b batches IH]; intros s Hobs.
  - split; [intros He; inversion He | intros _; now split].
  - unfold skillRun. cbn [fold_left].
    change (fold_left notify batches (notify s b)) with (skillRun (notify s b) batches).
    destruct (decide (e ∈ animatedBy b)) as [Hb | Hb].
    + assert (Hr : e ∈ animatedBy (reported s b)) by (now apply animatedBy_reported).
      pose proof (notify_unobserves s b e Hr) as Hun.
      destruct (skillRun_unobserved (notify s b) batches e Hun) as [Hbar _].
      split.
      * intros _. rewrite Hbar. split; [now apply notify_fires | ].
        clear -Hun. unfold skillRun. revert Hun. generalize (notify s b) as s'.
        induction batches as [ | b' batches IH']; intros s' Hun; simpl; [exact Hun | ].
        apply IH'. intros Hc. apply Hun. now apply notify_observed_subset in Hc.
      * intros Hn. exfalso. apply Hn. now apply Exists_cons_hd.
    + assert (Hr : e ∉ animatedBy (reported s b)).
      { intros Hc. apply Hb. now apply animatedBy_reported in Hc. }
      assert (Hobs' : e ∈ observed (notify s b)).
      { unfold notify. rewrite observed_skillCallback.
        apply elem_of_difference. split; [exact Hobs | ].
        now rewrite elem_of_list_to_set. }
      assert (Hbar : barOf (notify s b) e = barOf s e).
      { unfold notify. rewrite barOf_skillCallback. now rewrite decide_False. }
      destruct (IH _ Hobs') as [IH1 IH2]. rewrite Hbar in IH1, IH2. split.
      * intros He. apply IH1. inversion He; subst; [contradiction | assumption].
      * intros Hn. apply IH2. intros He. apply Hn. now apply Exists_cons_tl.
Qed.

(** X12. Who gets animated.  A skill bar that is observed and pending is
    animated after a sequence of notifications exactly when one of them
    reported it as intersecting; it then has [--progress-width] set to its
    [data-progress] followed by a percent sign ([null%] when the attribute
    is missing) and is no longer observed.  Otherwise the bar is exactly as
    before and still observed. *)
Theorem X12_animated_iff_intersected
    (s : Skills) (batches : list (list Entry)) (e : elem) :
  e ∈ observed s ->
  Pending s e ->
  (Animated (skillRun s batches) e <-> everIntersects e batches)
  /\ (everIntersects e batches ->
      progressWidth (barOf (skillRun s batches) e)
      = Some (percent (dataProgress (barOf s e)))
      /\ e ∉ observed (skillRun s batches))
  /\ (~ everIntersects e batches ->
      barOf (skillRun s batches) e = barOf s e /\ e ∈ observed (skillRun s batches)).
Proof.
  intros Hobs Hpend.
  destruct (skillRun_observed_pending batches s e Hobs) as [Hyes Hno].
  split; [ | split].
  - unfold Animated. split.
    + intros Ha. destruct (decide (everIntersects e batches)) as [He | He]; [exact He | ].
      destruct (Hno He) as [Hbar _]. rewrite Hbar in Ha.
      unfold Pending in Hpend. congruence.
    + intros He. destruct (Hyes He) as [Hbar _]. now rewrite Hbar.
  - intros He. destruct (Hyes He) as [Hbar Hun]. rewrite Hbar. now split.
  - exact Hno.
Qed.

Lemma twoBars_ready : 2%nat ∈ observed twoBars /\ Pending twoBars 2%nat.
Proof.
  split; [ | reflexivity].
  apply (bool_decide_unpack _). vm_compute. exact I.
Defined.

Lemma X12_witness :
  (Animated (skillRun twoBars [[enters 1%nat]; [enters 2%nat]]) 2%nat
   <-> everIntersects 2%nat [[enters 1%nat]; [enters 2%nat]])
  /\ (everIntersects 2%nat [[enters 1%nat]; [enters 2%nat]] ->
      progressWidth (barOf (skillRun twoBars [[enters 1%nat]; [enters 2%nat]]) 2%nat)
      = Some (percent (dataProgress (barOf twoBars 2%nat)))
      /\ 2%nat ∉ observed (skillRun twoBars [[enters 1%nat]; [enters 2%nat]]))
  /\ (~ everIntersects 2%nat [[enters 1%nat]; [enters 2%nat]] ->
      barOf (skillRun twoBars [[enters 1%nat]; [enters 2%nat]]) 2%nat
      = barOf twoBars 2%nat
      /\ 2%nat ∈ observed (skillRun twoBars [[enters 1%nat]; [enters 2%nat]])).
Proof.
  apply (X12_animated_iff_intersected twoBars [[enters 1%nat]; [enters 2%nat]] 2%nat).
  - exact (proj1 twoBars_ready).
  - exact (proj2 twoBars_ready).
Defined.

End IntersectionFacts.

(** ** PerformanceOptimizer *)

Section PerformanceFacts.
Import ScrollAnimations Intersections PerformanceOptimizer.

Lemma imgOf_loadEntry s en e :
  imgOf (loadEntry s en) e
  = if decide (isIntersecting en = true /\ target en = e)
    then loadImg (imgOf s e) else imgOf s e.
Proof.
  unfold loadEntry. destruct (isIntersecting en) eqn:Hi.
  - unfold imgOf at 1. simpl. destruct (decide (target en = e)) as [He | He].
    + rewrite decide_True by auto. subst e. now rewrite lookup_insert_eq.
    + rewrite decide_False by tauto. now rewrite lookup_insert_ne.
  - rewrite decide_False; [reflexivity | ]. intros [H _]. discriminate.
Qed.

Lemma timesReported_cons e en entries :
  timesReported e (en :: entries)
  = if decide (isIntersecting en = true /\ target en = e)
    then S (timesReported e entries) else timesReported e entries.
Proof.
  unfold timesReported. rewrite animatedBy_cons.
  destruct (isIntersecting en) eqn:Hi.
  - rewrite filter_cons. destruct (decide (target en = e)) as [He | He].
    + rewrite decide_True by auto. reflexivity.
    + rewrite decide_False by tauto. reflexivity.
  - rewrite decide_False; [reflexivity | ]. intros [H _]. discriminate.
Qed.

(** The callback loads an image as often as the entries report it. *)
Lemma imgOf_lazyCallback entries s e :
  imgOf (lazyCallback entries s) e
  = Nat.iter (timesReported e entries) loadImg (imgOf s e).
Proof.
  unfold lazyCallback. revert s.
  induction entries as [ | en entries IH]; intros s; [reflexivity | ].
  cbn [fold_left]. rewrite IH, imgOf_loadEntry, timesReported_cons.
  destruct (decide (isIntersecting en = true /\ target en = e)); [ | reflexivity].
  now rewrite Nat.iter_succ_r.
Qed.

Lemma observed_lazyCallback entries s :
  imgObserved (lazyCallback entries s)
  = imgObserved s ∖ list_to_set (animatedBy entries).
Proof.
  unfold lazyCallback. revert s.
  induction entries as [ | en entries IH]; intros s.
  - simpl. set_solver.
  - cbn [fold_left]. rewrite IH, animatedBy_cons. unfold loadEntry.
    destruct (isIntersecting en); simpl; set_solver.
Qed.

Lemma timesReported_observed s b e :
  e ∈ imgObserved s ->
  timesReported e (filter (fun en => target en ∈ imgObserved s) b) = timesReported e b.
Proof.
  intros Hobs. induction b as [ | en b IH]; [reflexivity | ].
  rewrite filter_cons. destruct (decide (target en ∈ imgObserved s)) as [Ht | Ht].
  - rewrite !timesReported_cons, IH. reflexivity.
  - rewrite IH, timesReported_cons. rewrite decide_False; [reflexivity | ].
    intros [_ He]. subst e. contradiction.
Qed.

Lemma timesReported_zero e entries :
  e ∉ animatedBy entries -> timesReported e entries = 0%nat.
Proof.
  unfold timesReported. intros H.
  induction (animatedBy entries) as [ | x l IH]; [reflexivity | ].
  rewrite filter_cons. apply not_elem_of_cons in H as [Hne Hl].
  rewrite decide_False by congruence. now apply IH.
Qed.

Lemma timesReported_one e entries :
  NoDup (animatedBy entries) -> e ∈ animatedBy entries ->
  timesReported e entries = 1%nat.
Proof.
  unfold timesReported. intros Hnd Hin.
  induction Hnd as [ | x l Hx Hnd IH]; [inversion Hin | ].
  rewrite filter_cons. apply elem_of_cons in Hin as [-> | Hin].
  - rewrite decide_True by reflexivity. simpl. f_equal.
    clear IH Hnd. induction l as [ | y l IH]; [reflexivity | ].
    apply not_elem_of_cons in Hx as [Hne Hx].
    rewrite filter_cons, decide_False by congruence. now apply IH.
  - rewrite decide_False; [now apply IH | ]. intros ->. contradiction.
Qed.

Lemma lazyNotify_unobserved s b e :
  e ∉ imgObserved s ->
  imgOf (lazyNotify s b) e = imgOf s e /\ e ∉ imgObserved (lazyNotify s b).
Proof.
  intros H. unfold lazyNotify. rewrite imgOf_lazyCallback, observed_lazyCallback.
  split; [ | set_solver].
  rewrite timesReported_zero; [reflexivity | ].
  unfold animatedBy. intros Hin.
  apply list_elem_of_fmap in Hin as (en & -> & Hen).
  apply list_elem_of_filter in Hen as [_ Hen].
  now apply list_elem_of_filter in Hen as [Hen _].
Qed.

Lemma lazyRun_unobserved batches s e :
  e ∉ imgObserved s ->
  imgOf (lazyRun s batches) e = imgOf s e /\ e ∉ imgObserved (lazyRun s batches).
Proof.
  unfold lazyRun. revert s.
  induction batches as [ | b batches IH]; intros s H; [now split | ].
  cbn [fold_left]. destruct (lazyNotify_unobserved s b e H) as [Hi Ho].
  destruct (IH _ Ho) as [IHi IHo]. split; [now rewrite IHi | exact IHo].
Qed.

Lemma lazyNotify_observed s b e :
  e ∈ imgObserved s ->
  imgOf (lazyNotify s b) e = Nat.iter (timesReported e b) loadImg (imgOf s e)
  /\ (e ∈ imgObserved (lazyNotify s b) <-> e ∉ animatedBy b).
Proof.
  intros Hobs. unfold lazyNotify.
  rewrite imgOf_lazyCallback, observed_lazyCallback, timesReported_observed by exact Hobs.
  split; [reflexivity | ].
  rewrite elem_of_difference, elem_of_list_to_set.
  assert (Heq : e ∈ animatedBy (filter (fun en => target en ∈ imgObserved s) b)
                <-> e ∈ animatedBy b).
  { unfold animatedBy. rewrite !list_elem_of_fmap. split.
    - intros (en & -> & Hen). exists en. split; [reflexivity | ].
      apply list_elem_of_filter in Hen as [Hi Hen].
      apply list_elem_of_filter in Hen as [_ Hen].
      apply list_elem_of_filter. auto.
    - intros (en & -> & Hen). exists en. split; [reflexivity | ].
      apply list_elem_of_filter in Hen as [Hi Hen].
      apply list_elem_of_filter. split; [exact Hi | ].
      apply list_elem_of_filter. auto. }
  rewrite Heq. tauto.
Qed.

(** X13. A lazy image loads once.  An observed image with [data-src]
    [u], under notifications that never report one target twice at once:
    if some notification reports it as intersecting, it ends with [src]
    [u], without [data-src], and unobserved; if none does, it is untouched
    and still observed. *)
Theorem X13_lazy_image_loads_once
    (s : Images) (batches : list (list Entry)) (e : elem) (u : string) :
  e ∈ imgObserved s ->
  dataSrc (imgOf s e) = Some u ->
  reportsOnce batches ->
  (everIntersects e batches ->
     imgOf (lazyRun s batches) e = {| src := Some u; dataSrc := None |}
     /\ e ∉ imgObserved (lazyRun s batches))
  /\ (~ everIntersects e batches ->
     imgOf (lazyRun s batches) e = imgOf s e
     /\ e ∈ imgObserved (lazyRun s batches)).
Proof.
  unfold reportsOnce, everIntersects. intros Hobs Hsrc Hnd. revert s Hobs Hsrc.
  induction Hnd as [ | b batches Hb Hnd IH]; intros s Hobs Hsrc.
  - split; [intros He; inversion He | intros _; now split].
  - unfold lazyRun. cbn [fold_left].
    change (fold_left lazyNotify batches (lazyNotify s b))
      with (lazyRun (lazyNotify s b) batches).
    destruct (lazyNotify_observed s b e Hobs) as [Himg Hstill].
    destruct (decide (e ∈ animatedBy b)) as [Hin | Hin].
    + rewrite (timesReported_one e b Hb Hin) in Himg. simpl in Himg.
      assert (Hun : e ∉ imgObserved (lazyNotify s b)) by tauto.
      destruct (lazyRun_unobserved batches _ e Hun) as [Hi Ho].
      split.
      * intros _. rewrite Hi, Himg. unfold loadImg. rewrite Hsrc. now split.
      * intros Hn. exfalso. apply Hn. now apply Exists_cons_hd.
    + rewrite (timesReported_zero e b Hin) in Himg. simpl in Himg.
      assert (Hobs' : e ∈ imgObserved (lazyNotify s b)) by tauto.
      assert (Hsrc' : dataSrc (imgOf (lazyNotify s b) e) = Some u) by (now rewrite Himg).
      destruct (IH _ Hobs' Hsrc') as [IH1 IH2]. rewrite Himg in IH2. split.
      * intros He. apply IH1. inversion He; subst; [contradiction | assumption].
      * intros Hn. apply IH2. intros He. apply Hn. now apply Exists_cons_tl.
Qed.

Lemma onePicture_observed : 7%nat ∈ imgObserved onePicture.
Proof. apply (bool_decide_unpack _). vm_compute. exact I. Defined.

Lemma once_reported : reportsOnce [[leaves 7%nat]; [enters 7%nat]].
Proof.
  unfold reportsOnce. repeat constructor. simpl. apply not_elem_of_nil.
Defined.

Lemma X13_witness :
  (everIntersects 7%nat [[leaves 7%nat]; [enters 7%nat]] ->
     imgOf (lazyRun onePicture [[leaves 7%nat]; [enters 7%nat]]) 7%nat
     = {| src := Some "photo.jpg"%string; dataSrc := None |}
     /\ 7%nat ∉ imgObserved (lazyRun onePicture [[leaves 7%nat]; [enters 7%nat]]))
  /\ (~ everIntersects 7%nat [[leaves 7%nat]; [enters 7%nat]] ->
     imgOf (lazyRun onePicture [[leaves 7%nat]; [enters 7%nat]]) 7%nat
     = imgOf onePicture 7%nat
     /\ 7%nat ∈ imgObserved (lazyRun onePicture [[leaves 7%nat]; [enters 7%nat]])).
Proof.
  apply (X13_lazy_image_loads_once onePicture [[leaves 7%nat]; [enters 7%nat]]
           7%nat "photo.jpg").
  - exact onePicture_observed.
  - reflexivity.
  - exact once_reported.
Defined.

Lemma loadImg_twice n i :
  Nat.iter (S (S n)) loadImg i
  = {| src := Some "undefined"%string; dataSrc := None |}.
Proof. induction n as [ | n IH]; [reflexivity | ]. simpl in *. now rewrite IH. Qed.

(** X14. A doubly reported image loses its source.  When one
    notification reports an observed image as intersecting twice or more,
    the second assignment reads the [data-src] the first one removed: the
    image ends with [src] ["undefined"], whatever its [data-src] was. *)
Theorem X14_lazy_image_reported_twice (s : Images) (b : list Entry) (e : elem) :
  e ∈ imgObserved s ->
  (2 <= timesReported e b)%nat ->
  imgOf (lazyNotify s b) e = {| src := Some "undefined"%string; dataSrc := None |}.
Proof.
  intros Hobs Htwice. destruct (lazyNotify_observed s b e Hobs) as [Himg _].
  rewrite Himg. destruct (timesReported e b) as [ | [ | n]]; try lia.
  apply loadImg_twice.
Qed.

Lemma X14_witness :
  imgOf (lazyNotify onePicture [enters 7%nat; enters 7%nat]) 7%nat
  = {| src := Some "undefined"%string; dataSrc := None |}.
Proof.
  apply (X14_lazy_image_reported_twice onePicture [enters 7%nat; enters 7%nat] 7%nat).
  - exact onePicture_observed.
  - apply (bool_decide_unpack _). vm_compute. exact I.
Defined.

Lemma hoverRun_from (hrefOf : elem -> string) (ls : list elem) (p : Prefetch) :
  armed (hoverRun hrefOf p ls) = armed p ∖ list_to_set ls
  /\ exists added : list elem,
       headChildren (hoverRun hrefOf p ls)
       = headChildren p
         ++ ((fun l => {| rel := "prefetch"; prefetchHref := hrefOf l |}) <$> added)
       /\ NoDup added
       /\ forall l, l ∈ added <-> l ∈ armed p /\ l ∈ ls.
Proof.
  unfold hoverRun. revert p.
  induction ls as [ | x ls IH]; intros p.
  - simpl. split; [now rewrite difference_empty_L | ]. exists []. rewrite app_nil_r.
    split; [reflexivity | split; [constructor | ]].
    intros l. split; [intros H; inversion H | intros [_ H]; inversion H].
  - cbn [fold_left].
    destruct (IH (onMouseEnter hrefOf p x)) as (Ha & added & Hh & Hnd & Hm).
    rewrite Ha, Hh. clear Ha Hh IH. rewrite list_to_set_cons.
    unfold onMouseEnter in *. destruct (decide (x ∈ armed p)) as [Hx | Hx]; simpl in *.
    + split; [now rewrite difference_difference_l_L | ].
      exists (x :: added). rewrite <- app_assoc. split; [reflexivity | ].
      split.
      * constructor; [ | exact Hnd]. intros Hc. apply Hm in Hc as [Hc _].
        apply elem_of_difference in Hc as [_ Hc]. apply Hc. now apply elem_of_singleton.
      * intros l. rewrite !elem_of_cons, Hm, elem_of_difference, elem_of_singleton.
        split.
        -- intros [-> | [[H1 H2] H3]]; auto.
        -- intros [H1 [-> | H3]]; [now left | ].
           destruct (decide (l = x)) as [-> | Hne]; [now left | right; auto].
    + split.
      * apply set_eq. intros l.
        rewrite !elem_of_difference, elem_of_union, elem_of_singleton.
        split; [ | tauto].
        intros [H1 H2]. split; [exact H1 | ].
        intros [-> | H3]; contradiction.
      * exists added. split; [reflexivity | split; [exact Hnd | ]].
        intros l. rewrite Hm, elem_of_cons. split; [tauto | ].
        intros [H1 [-> | H3]]; [contradiction | auto].
Qed.

Lemma firstOccurrences_filter (P : elem -> Prop) `{!forall x, Decision (P x)}
    (ls : list elem) :
  firstOccurrences (filter P ls) = filter P (firstOccurrences ls).
Proof.
  induction ls as [ | l ls IH]; [reflexivity | ].
  rewrite filter_cons. destruct (decide (P l)) as [Hl | Hl].
  - cbn [firstOccurrences]. rewrite filter_cons, decide_True by exact Hl.
    f_equal. rewrite IH, !list_filter_filter.
    apply list_filter_iff. intros x. tauto.
  - cbn [firstOccurrences]. rewrite filter_cons, decide_False by exact Hl.
    rewrite IH, list_filter_filter.
    apply list_filter_iff. intros x. split; [ | tauto].
    intros Hx. split; [exact Hx | ]. intros ->. contradiction.
Qed.

Lemma firstOccurrences_elem (ls : list elem) x : x ∈ firstOccurrences ls <-> x ∈ ls.
Proof.
  induction ls as [ | l ls IH]; [reflexivity | ].
  cbn [firstOccurrences]. rewrite !elem_of_cons, list_elem_of_filter, IH.
  destruct (decide (x = l)); tauto.
Qed.

Lemma firstOccurrences_NoDup (ls : list elem) : NoDup (firstOccurrences ls).
Proof.
  induction ls as [ | l ls IH]; [constructor | ].
  cbn [firstOccurrences]. constructor.
  - rewrite list_elem_of_filter. intros [H _]. now apply H.
  - now apply NoDup_filter.
Qed.

Lemma hoverRun_head (hrefOf : elem -> string) (ls : list elem) (p : Prefetch) :
  headChildren (hoverRun hrefOf p ls)
  = headChildren p
    ++ (prefetchFor hrefOf <$> firstOccurrences (filter (fun l => l ∈ armed p) ls)).
Proof.
  unfold hoverRun. revert p.
  induction ls as [ | x ls IH]; intros p.
  - simpl. now rewrite app_nil_r.
  - cbn [fold_left]. rewrite IH, filter_cons. unfold onMouseEnter.
    destruct (decide (x ∈ armed p)) as [Hx | Hx]; [ | reflexivity].
    cbn [armed headChildren firstOccurrences]. rewrite <- app_assoc, fmap_cons.
    do 3 f_equal.
    rewrite <- firstOccurrences_filter, list_filter_filter.
    f_equal. apply list_filter_iff. intros l.
    rewrite elem_of_difference, elem_of_singleton. tauto.
Qed.

(** X15. One prefetch per hovered link, in the order of the first hovers.
    After any sequence of hovers, the head holds its former children
    followed by one prefetch element, carrying the link's [href], for each
    external link that was hovered, at the place of its first hover among
    them: no link contributes twice, however often it was hovered, and
    the others contribute nothing.  The links still listening are those
    never hovered. *)
Theorem X15_one_prefetch_per_link
    (hrefOf : elem -> string) (links : list elem) (head : list PrefetchEl)
    (ls : list elem) :
  let added := firstOccurrences (filter (fun l => l ∈ links) ls) in
  headChildren (hoverRun hrefOf (prefetchSetup links head) ls)
  = head ++ (prefetchFor hrefOf <$> added)
  /\ NoDup added
  /\ (forall l, l ∈ added <-> l ∈ links /\ l ∈ ls)
  /\ armed (hoverRun hrefOf (prefetchSetup links head) ls)
     = list_to_set links ∖ list_to_set ls.
Proof.
  intros added. split; [ | split; [ | split]].
  - rewrite hoverRun_head. cbn [headChildren armed prefetchSetup]. do 3 f_equal.
    apply list_filter_iff. intros l. apply elem_of_list_to_set.
  - apply firstOccurrences_NoDup.
  - intros l. unfold added. rewrite firstOccurrences_elem, list_elem_of_filter.
    reflexivity.
  - now destruct (hoverRun_from hrefOf ls (prefetchSetup links head)) as [Ha _].
Qed.

Example hover_order :
  headChildren (hoverRun (fun l => if decide (l = 1%nat) then "http://a" else "http://b")
                  (prefetchSetup [1%nat; 2%nat] []) [2; 9; 1; 2; 1]%nat)
  = [ {| rel := "prefetch"; prefetchHref := "http://b" |};
      {| rel := "prefetch"; prefetchHref := "http://a" |} ].
Proof. vm_compute. reflexivity. Qed.

End PerformanceFacts.

(** ** ContactForm: more on the validators *)

Section ValidatorAlgebra.
Import JS ContactForm FormInvariant.

Lemma trimStart_app_blank l x : allSpace l -> trimStart (l ++ x) = trimStart x.
Proof. induction 1 as [ | c l Hc _ IH]; simpl; [reflexivity | now rewrite Hc]. Qed.

Lemma trimStart_app v r :
  trimStart (v ++ r)
  = match trimStart v with
    | [] => trimStart r
    | _ :: _ => trimStart v ++ r
    end.
Proof.
  induction v as [ | c v IH]; simpl; [now destruct (trimStart r) | ].
  destruct (isWhiteSpace c); [exact IH | reflexivity].
Qed.

Lemma trimEnd_app_blank x r : allSpace r -> trimEnd (x ++ r) = trimEnd x.
Proof.
  intros H. unfold trimEnd. rewrite rev_app_distr.
  rewrite trimStart_app_blank; [reflexivity | ]. now apply Forall_rev.
Qed.

(** White space around a value does not survive [trim]. *)
Lemma trim_pad l v r : allSpace l -> allSpace r -> trim (l ++ v ++ r) = trim v.
Proof.
  intros Hl Hr. unfold trim. rewrite trimStart_app_blank by exact Hl.
  rewrite trimStart_app. destruct (trimStart v) as [ | c w] eqn:E.
  - now rewrite (trimStart_blank r Hr).
  - now apply trimEnd_app_blank.
Qed.

Lemma validate_withValue f v st :
  fst (validate f (withValue f v st)) = isValid f v
  /\ errorOf f (snd (validate f (withValue f v st)))
     = match verdictOf f v with
       | Valid => {| textContent := textContent (errorOf f st); visible := false |}
       | Fails k => {| textContent := messageOf f k; visible := true |}
       end.
Proof.
  rewrite validate_fst, validate_outcome, outcome_error.
  assert (Hv : value (inputOf f (withValue f v st)) = v) by (now destruct f).
  assert (He : errorOf f (withValue f v st) = errorOf f st) by (now destruct f).
  now rewrite Hv, He.
Qed.

(** X16. White space around a value never matters.  Padding a field's
    value with white space on either side changes neither the verdict of
    its validator, nor what the validator returns, nor the error it
    shows. *)
Theorem X16_padding_never_matters
    (f : Field) (l v r : jsstring) (st : State) :
  allSpace l -> allSpace r ->
  verdictOf f (l ++ v ++ r) = verdictOf f v
  /\ fst (validate f (withValue f (l ++ v ++ r) st)) = fst (validate f (withValue f v st))
  /\ errorOf f (snd (validate f (withValue f (l ++ v ++ r) st)))
     = errorOf f (snd (validate f (withValue f v st))).
Proof.
  intros Hl Hr.
  assert (Hv : verdictOf f (l ++ v ++ r) = verdictOf f v).
  { destruct f; simpl; unfold nameVerdict, emailVerdict, messageVerdict;
      now rewrite (trim_pad l v r Hl Hr). }
  destruct (validate_withValue f (l ++ v ++ r) st) as [H1 H2].
  destruct (validate_withValue f v st) as [H3 H4].
  split; [exact Hv | ]. unfold isValid in *. rewrite H1, H2, H3, H4, Hv. now split.
Qed.

Lemma X16_witness :
  verdictOf Email (lit "  " ++ lit "a@b.c" ++ lit " ") = verdictOf Email (lit "a@b.c")
  /\ fst (validate Email (withValue Email (lit "  " ++ lit "a@b.c" ++ lit " ") blank))
     = fst (validate Email (withValue Email (lit "a@b.c") blank))
  /\ errorOf Email
       (snd (validate Email (withValue Email (lit "  " ++ lit "a@b.c" ++ lit " ") blank)))
     = errorOf Email (snd (validate Email (withValue Email (lit "a@b.c") blank))).
Proof.
  apply (X16_padding_never_matters Email (lit "  ") (lit "a@b.c") (lit " ")
           blank).
  - repeat constructor.
  - repeat constructor.
Defined.

Lemma notSpaceAt_true c :
  notSpaceAt c = true -> isWhiteSpace c = false /\ c <> 64%N.
Proof.
  unfold notSpaceAt. rewrite negb_true_iff, orb_false_iff.
  intros [H1 H2]. split; [exact H1 | ]. now apply N.eqb_neq.
Qed.

Lemma run_ok_facts s :
  run_ok s ->
  filter (fun c => c = 64%N) s = []
  /\ Forall (fun c => isWhiteSpace c = false) s
  /\ (1 <= length s)%nat.
Proof.
  intros [Hne Hall]. split; [ | split].
  - clear Hne. induction Hall as [ | c s Hc _ IH]; [reflexivity | ].
    apply notSpaceAt_true in Hc as [_ Hc].
    unfold filter in *. simpl. case_decide; [congruence | exact IH].
  - eapply Forall_impl; [exact Hall | ]. intros c Hc. now apply notSpaceAt_true in Hc.
  - destruct s; [congruence | simpl; lia].
Qed.

(** X17. What an accepted e-mail address looks like.  When
    [validateEmail] returns [true], the trimmed value holds exactly one
    [@], no white space, at least five code units, and a dot somewhere
    after the [@]. *)
Theorem X17_accepted_email_facts (st : State) :
  fst (validateEmail st) = true ->
  let s := trim (value (emailInput st)) in
  length (filter (fun c => c = 64%N) s) = 1%nat
  /\ Forall (fun c => isWhiteSpace c = false) s
  /\ (5 <= length s)%nat
  /\ exists l rest, s = l ++ [64%N] ++ rest /\ 46%N ∈ rest.
Proof.
  intros Hok s.
  assert (Hs : emailShape s).
  { pose proof (validate_fst Email st) as H. cbn [validate inputOf] in H.
    rewrite Hok in H. symmetry in H. unfold isValid in H. cbn [verdictOf] in H.
    destruct (emailVerdict (value (emailInput st))) eqn:E; [ | discriminate].
    now apply emailVerdict_cases in E. }
  destruct Hs as (l & d & t & Heq & Hl & Hd & Ht).
  apply run_ok_facts in Hl as (Hl1 & Hl2 & Hl3).
  apply run_ok_facts in Hd as (Hd1 & Hd2 & Hd3).
  apply run_ok_facts in Ht as (Ht1 & Ht2 & Ht3).
  change (lit "@") with [64%N] in Heq. change (lit ".") with [46%N] in Heq.
  rewrite Heq. unfold jsstring, code_unit in *. split; [ | split; [ | split]].
  - rewrite !filter_app, Hl1, Hd1, Ht1. reflexivity.
  - repeat (apply Forall_app; split); auto; repeat constructor.
  - rewrite !length_app. simpl. lia.
  - exists l, (d ++ [46%N] ++ t). split; [reflexivity | ].
    apply elem_of_app. right. apply list_elem_of_here.
Qed.

Lemma X17_witness :
  let s := trim (value (emailInput filled)) in
  length (filter (fun c => c = 64%N) s) = 1%nat
  /\ Forall (fun c => isWhiteSpace c = false) s
  /\ (5 <= length s)%nat
  /\ exists l rest, s = l ++ [64%N] ++ rest /\ 46%N ∈ rest.
Proof. apply (X17_accepted_email_facts filled). reflexivity. Defined.

(** X18. Validators are idempotent and independent.  Running a validator
    again on the page it left changes nothing and returns the same; two
    validators leave the same page in either order, and the result of one
    does not depend on whether another ran before it. *)
Theorem X18_validators_idempotent_independent (f g : Field) (st : State) :
  validate f (snd (validate f st)) = validate f st
  /\ snd (validate f (snd (validate g st))) = snd (validate g (snd (validate f st)))
  /\ fst (validate f (snd (validate g st))) = fst (validate f st).
Proof.
  split; [ | split].
  - rewrite !validate_outcome, !outcome_value.
    now destruct (verdictOf f (value (inputOf f st))), f.
  - destruct (decide (f = g)) as [-> | Hne]; [reflexivity | ].
    rewrite !validate_outcome, !outcome_value.
    generalize (verdictOf f (value (inputOf f st))) as vf.
    generalize (verdictOf g (value (inputOf g st))) as vg.
    intros vg vf. destruct vf, vg, f, g; try reflexivity; congruence.
  - rewrite !validate_outcome, !outcome_value.
    now destruct (verdictOf f (value (inputOf f st))).
Qed.

End ValidatorAlgebra.

(** ** ContactForm: the life of a submission *)

Section SubmissionFacts.
Import JS ContactForm FormInvariant.

Lemma allValid_verdicts st :
  allValid st = true ->
  nameVerdict (value (nameInput st)) = Valid
  /\ emailVerdict (value (emailInput st)) = Valid
  /\ messageVerdict (value (messageInput st)) = Valid.
Proof.
  unfold allValid, isValid. cbn [verdictOf]. rewrite !andb_true_iff.
  intros [[Hn He] Hm].
  destruct (nameVerdict _); [ | discriminate].
  destruct (emailVerdict _); [ | discriminate].
  destruct (messageVerdict _); [ | discriminate].
  auto.
Qed.

Lemma submit_step_valid st :
  allValid st = true ->
  step st Submit
  = enterLoading (clearError Message (clearError Email (clearError Name st))).
Proof.
  intros Hv. cbn [step]. rewrite handleSubmitStart_eq, Hv. cbn [fst snd].
  rewrite validateAll_eq.
  destruct (allValid_verdicts st Hv) as (-> & -> & ->). reflexivity.
Qed.

(** X19. A successful submission, end to end.  On a page whose three
    fields are valid and which has the success element: the submit
    disables the button; when the submission is fulfilled every field is
    back at its default value with no error shown (nothing re-validates
    the reset fields), the success element is visible, the button is
    enabled again, one hide timer is pending and no alert was raised; and
    when the timer fires the success element is hidden. *)
Theorem X19_successful_submission (st : State) (shown : bool) :
  allValid st = true ->
  formSuccess st = Some shown ->
  let st2 := run st [Submit; Settled Fulfilled] in
  submitButton (run st [Submit]) = loadingButton
  /\ (forall f, value (inputOf f st2) = defaultValue st f)
  /\ (forall f, displayedError f st2 = ""%string /\ errorClass (inputOf f st2) = false)
  /\ formSuccess st2 = Some true
  /\ submitButton st2 = idleButton
  /\ awaiting st2 = awaiting st
  /\ hideTimers st2 = S (hideTimers st)
  /\ alerts st2 = alerts st
  /\ consoleErrors st2 = consoleErrors st
  /\ formSuccess (run st2 [HideTimer]) = Some false.
Proof.
  intros Hv Hs. unfold run. cbn [fold_left].
  rewrite (submit_step_valid st Hv). clear Hv.
  destruct st as [ni ei mi ne ee me fs sb dv aw ht al ce]. simpl in Hs. subst fs.
  split; [reflexivity | ].
  split; [intros f; now destruct f | ].
  split; [intros f; destruct f; split; reflexivity | ].
  repeat (split; [reflexivity | ]). reflexivity.
Qed.

Lemma X19_witness :
  let st2 := run filled [Submit; Settled Fulfilled] in
  submitButton (run filled [Submit]) = loadingButton
  /\ (forall f, value (inputOf f st2) = defaultValue filled f)
  /\ (forall f, displayedError f st2 = ""%string /\ errorClass (inputOf f st2) = false)
  /\ formSuccess st2 = Some true
  /\ submitButton st2 = idleButton
  /\ awaiting st2 = awaiting filled
  /\ hideTimers st2 = S (hideTimers filled)
  /\ alerts st2 = alerts filled
  /\ consoleErrors st2 = consoleErrors filled
  /\ formSuccess (run st2 [HideTimer]) = Some false.
Proof. apply (X19_successful_submission filled false); reflexivity. Defined.

Lemma resume_missing_success st :
  formSuccess st = None ->
  handleSubmitResume Fulfilled st
  = handleSubmitResume (Rejected (TypeError "formSuccess is null")) st.
Proof.
  intros Hs. destruct st as [ni ei mi ne ee me fs sb dv aw ht al ce].
  simpl in Hs. subst fs. reflexivity.
Qed.

(** X20. A failed submission.  On a page whose three fields are valid,
    when the submission is rejected the field values and the success
    element are as before, one alert and one console error are added, no
    timer is set and the button is enabled again.  And when the success
    element is missing, a fulfilled submission ends exactly like one
    rejected with a [TypeError]: the alert is raised and the form is not
    reset. *)
Theorem X20_failed_submission (st : State) (err : JsError) :
  allValid st = true ->
  let st2 := run st [Submit; Settled (Rejected err)] in
  (forall f, value (inputOf f st2) = value (inputOf f st))
  /\ formSuccess st2 = formSuccess st
  /\ alerts st2 = alerts st ++ ["Une erreur est survenue. Veuillez réessayer."%string]
  /\ consoleErrors st2 = consoleErrors st ++ [err]
  /\ submitButton st2 = idleButton
  /\ hideTimers st2 = hideTimers st
  /\ awaiting st2 = awaiting st
  /\ (formSuccess st = None ->
      run st [Submit; Settled Fulfilled]
      = run st [Submit; Settled (Rejected (TypeError "formSuccess is null"))]).
Proof.
  intros Hv. unfold run. cbn [fold_left].
  rewrite (submit_step_valid st Hv). clear Hv.
  assert (Hlast : formSuccess st = None ->
            step (enterLoading (clearError Message (clearError Email (clearError Name st))))
              (Settled Fulfilled)
            = step (enterLoading (clearError Message (clearError Email (clearError Name st))))
                (Settled (Rejected (TypeError "formSuccess is null")))).
  { intros Hs. cbn [step]. now rewrite resume_missing_success. }
  revert Hlast.
  generalize (step (enterLoading (clearError Message (clearError Email (clearError Name st))))
                (Settled Fulfilled)) as sf.
  intros sf Hlast.
  destruct st as [ni ei mi ne ee me fs sb dv aw ht al ce].
  split; [intros f; now destruct f | ].
  repeat (split; [reflexivity | ]).
  exact Hlast.
Qed.

Lemma X20_witness :
  let st2 := run filled [Submit; Settled (Rejected (Reason "offline"))] in
  (forall f, value (inputOf f st2) = value (inputOf f filled))
  /\ formSuccess st2 = formSuccess filled
  /\ alerts st2
     = alerts filled ++ ["Une erreur est survenue. Veuillez réessayer."%string]
  /\ consoleErrors st2 = consoleErrors filled ++ [Reason "offline"]
  /\ submitButton st2 = idleButton
  /\ hideTimers st2 = hideTimers filled
  /\ awaiting st2 = awaiting filled
  /\ (formSuccess filled = None ->
      run filled [Submit; Settled Fulfilled]
      = run filled [Submit; Settled (Rejected (TypeError "formSuccess is null"))]).
Proof. apply (X20_failed_submission filled (Reason "offline")). reflexivity. Defined.

Example missing_success_element :
  let st2 := run filledNoSuccess [Submit; Settled Fulfilled] in
  value (nameInput st2) = lit "Jo"
  /\ alerts st2 = ["Une erreur est survenue. Veuillez réessayer."%string]
  /\ consoleErrors st2 = [TypeError "formSuccess is null"].
Proof. repeat split. Qed.

Lemma outcome_consistent success defaults f v st :
  consistent success defaults st ->
  consistent success defaults (snd (outcome f v st)).
Proof.
  unfold consistent. intros (Hf & Hb & Hs & Ht & Hd).
  pose proof (Hf Name) as [Hn1 Hn2]. pose proof (Hf Email) as [He1 He2].
  pose proof (Hf Message) as [Hm1 Hm2]. cbn [inputOf errorOf] in *.
  split; [ | destruct v, f; simpl; auto].
  intros g. destruct v as [ | k], f, g; simpl; split; auto;
    try discriminate; intros _; exists k; reflexivity.
Qed.

Lemma onInput_consistent success defaults f v st :
  consistent success defaults st ->
  consistent success defaults (onInput f v st).
Proof.
  unfold consistent. intros (Hf & Hb & Hs & Ht & Hd).
  pose proof (Hf Name) as [Hn1 Hn2]. pose proof (Hf Email) as [He1 He2].
  pose proof (Hf Message) as [Hm1 Hm2]. cbn [inputOf errorOf] in *.
  split; [ | destruct f; simpl; auto].
  intros g. destruct f, g; simpl; split; auto; discriminate.
Qed.

Lemma resume_consistent success defaults s st n :
  consistent success defaults st ->
  let st' := snd (handleSubmitResume s st) in
  consistent success defaults
    (setRuntime (formSuccess st') n (hideTimers st') (alerts st') (consoleErrors st') st').
Proof.
  unfold consistent. intros (Hf & Hb & Hs & Ht & Hd).
  pose proof (Hf Name) as [Hn1 Hn2]. pose proof (Hf Email) as [He1 He2].
  pose proof (Hf Message) as [Hm1 Hm2]. cbn [inputOf errorOf] in *.
  unfold handleSubmitResume, tryCatchFinally, mbind, M_bind, bind, await, showSuccess.
  destruct s as [ | err]; simpl.
  - destruct (formSuccess st) as [b | ] eqn:Es; simpl.
    + split; [intros g; destruct g; simpl; split; auto | ].
      split; [discriminate | ]. split; [ | split; [discriminate | exact Hd]].
      split; [discriminate | ]. intros H. apply Hs in H. discriminate.
    + rewrite Es. split; [intros g; destruct g; simpl; split; auto | ].
      split; [discriminate | ]. auto.
  - split; [intros g; destruct g; simpl; split; auto | ].
    split; [discriminate | ]. auto.
Qed.

Lemma step_consistent success defaults st ev :
  consistent success defaults st -> consistent success defaults (step st ev).
Proof.
  intros H. destruct ev as [f | f v | | s | ]; cbn [step].
  - rewrite onBlur_eq. now apply outcome_consistent.
  - now apply onInput_consistent.
  - rewrite handleSubmitStart_eq.
    assert (Hall : consistent success defaults (validateAll st)).
    { rewrite validateAll_eq. now repeat apply outcome_consistent. }
    destruct (allValid st); cbn [fst snd]; [ | exact Hall].
    revert Hall. generalize (validateAll st) as x. intros x Hall.
    destruct Hall as (Hf & Hb & Hs & Ht & Hd). unfold consistent.
    split; [ | simpl; auto].
    intros g. specialize (Hf g). now destruct g.
  - destruct (awaiting st); [exact H | ]. now apply resume_consistent.
  - destruct (hideTimers st) as [ | n] eqn:Eh; [exact H | ].
    destruct H as (Hf & Hb & Hs & Ht & Hd). unfold consistent, onHideTimer.
    split; [intros g; specialize (Hf g); now destruct g | ].
    split; [exact Hb | ]. split; [ | split; [discriminate | exact Hd]].
    split; [discriminate | ].
    intros Hn. apply Hs, Ht in Hn. congruence.
Qed.

(** X21. What holds on every reachable page.  After any sequence of
    blurs, inputs, submits, settlements and timer expiries from a freshly
    loaded page: a field's input carries the [error] class exactly when
    its error element is visible, and a visible error element holds one of
    that field's messages; the button is disabled only while a call of the
    submit handler is suspended; and a hide timer is pending only if the
    success element exists, so its callback never meets a missing
    element. *)
Theorem X21_reachable_pages_consistent
    (success : option bool) (defaults : Field -> jsstring) (evs : list Event) :
  consistent success defaults (run (initial success defaults) evs).
Proof.
  assert (H0 : consistent success defaults (initial success defaults)).
  { unfold consistent, initial. simpl.
    split; [intros f; destruct f; simpl; split; auto; discriminate | ].
    split; [discriminate | ]. split; [tauto | auto]. }
  unfold run. revert H0. generalize (initial success defaults) as st.
  induction evs as [ | ev evs IH]; intros st H; simpl; [exact H | ].
  apply IH. now apply step_consistent.
Qed.

End SubmissionFacts.

Section SimulatedFacts.
Import JS ContactForm FormInvariant.

Lemma step_quiet st ev :
  match ev with Settled s => s = simulateFormSubmission | _ => True end ->
  formSuccess st <> None ->
  alerts (step st ev) = alerts st
  /\ consoleErrors (step st ev) = consoleErrors st
  /\ formSuccess (step st ev) <> None.
Proof.
  intros Hev Hs. destruct ev as [f | f v | | s | ]; cbn [step].
  - rewrite onBlur_eq.
    destruct (outcome_rest f (verdictOf f (value (inputOf f st))) st)
      as (_ & H1 & _ & _ & _ & H2 & H3).
    rewrite H1, H2, H3. auto.
  - destruct f; simpl; auto.
  - rewrite handleSubmitStart_eq.
    destruct (validateAll_rest st) as (_ & H1 & _ & _ & _ & H2 & H3).
    revert H1 H2 H3. generalize (validateAll st) as x. intros x H1 H2 H3.
    destruct (allValid st); cbn [fst snd]; simpl; rewrite H1, H2, H3; auto.
  - destruct (awaiting st); [auto | ]. subst s.
    destruct st as [ni ei mi ne ee me fs sb dv aw ht al ce]. simpl in Hs.
    destruct fs as [b | ]; [ | congruence]. simpl. repeat split. discriminate.
  - destruct (hideTimers st); [auto | ]. simpl. repeat split. discriminate.
Qed.

(** X22. The error path is dead while the success element exists.  With
    the submission the code simulates, which always resolves, and a page
    that has the success element, no sequence of blurs, inputs, submits,
    settlements and timer expiries ever raises the alert or logs an
    error. *)
Theorem X22_simulated_submission_never_alerts
    (shown : bool) (defaults : Field -> jsstring) (evs : list Event) :
  simulated evs ->
  alerts (run (initial (Some shown) defaults) evs) = []
  /\ consoleErrors (run (initial (Some shown) defaults) evs) = [].
Proof.
  intros Hsim.
  assert (H0 : alerts (initial (Some shown) defaults) = []
               /\ consoleErrors (initial (Some shown) defaults) = []
               /\ formSuccess (initial (Some shown) defaults) <> None).
  { simpl. repeat split. discriminate. }
  unfold run. revert H0. generalize (initial (Some shown) defaults) as st.
  induction Hsim as [ | ev evs Hev _ IH]; intros st (Ha & Hc & Hs); [now split | ].
  cbn [fold_left]. apply IH.
  destruct (step_quiet st ev Hev Hs) as (Ha' & Hc' & Hs').
  rewrite Ha', Hc'. auto.
Qed.

Lemma X22_witness :
  alerts (run (initial (Some false) (fun _ => []))
            [Typed Name (lit "Jo"); Submit; Settled Fulfilled; HideTimer]) = []
  /\ consoleErrors (run (initial (Some false) (fun _ => []))
                      [Typed Name (lit "Jo"); Submit; Settled Fulfilled; HideTimer]) = [].
Proof.
  apply (X22_simulated_submission_never_alerts false (fun _ => [])).
  repeat constructor.
Defined.

End SimulatedFacts.

(** ** AccessibilityEnhancements *)

Section FocusTrapFacts.
Import FocusTrap.

Lemma sameElement_true active end_ :
  sameElement active end_ = true -> exists x, active = Some x /\ end_ = Some x.
Proof.
  destruct active as [a | ], end_ as [b | ]; simpl; try discriminate.
  intros H. apply bool_decide_eq_true in H. subst. eauto.
Qed.

Lemma head_last_some (l : list nat) x :
  head l = Some x \/ last l = Some x ->
  (exists y, head l = Some y /\ y ∈ l) /\ (exists z, last l = Some z /\ z ∈ l).
Proof.
  intros H. destruct l as [ | a l]; [destruct H; discriminate | ]. split.
  - exists a. split; [reflexivity | apply list_elem_of_here].
  - destruct (last (a :: l)) as [z | ] eqn:E.
    + exists z. split; [reflexivity | ]. now apply last_Some_elem_of.
    + apply last_None in E. discriminate.
Qed.

(** X23. The focus trap never fails and never leaves the menu.  For every
    list of the menu's elements (even an empty one), key, shift state and
    focused element, the listener does not throw.  It prevents the default
    action only for Tab on the last element and for Shift+Tab on the
    first; it then calls [focus()] on the other end, which takes the focus
    if it can and otherwise leaves the focus where it was.  In every case
    the focus afterwards is where it was or on an element of the menu that
    can take it. *)
Theorem X23_focus_trap_safe
    (canFocus : nat -> bool) (focusables : list nat) (key : string)
    (shiftKey : bool) (active : option nat) :
  let r := onTrapKeyDown canFocus focusables key shiftKey active in
  trapThrew r = false
  /\ (trapPrevented r = true ->
      key = "Tab"%string
      /\ active = (if shiftKey then head focusables else last focusables)
      /\ exists x,
           (if shiftKey then last focusables else head focusables) = Some x
           /\ x ∈ focusables
           /\ trapFocus r = (if canFocus x then Some x else active))
  /\ (trapPrevented r = false -> trapFocus r = active)
  /\ (trapFocus r = active
      \/ exists x, trapFocus r = Some x /\ x ∈ focusables /\ canFocus x = true).
Proof.
  unfold onTrapKeyDown.
  case_bool_decide as Hk; [ | simpl; repeat split; auto; discriminate].
  destruct shiftKey.
  - destruct (sameElement active (head focusables)) eqn:E;
      [ | simpl; repeat split; auto; discriminate].
    apply sameElement_true in E as (x & -> & Hh).
    destruct (head_last_some focusables x (or_introl Hh)) as [_ (z & Hz & Hin)].
    rewrite Hz. simpl. split; [reflexivity | ]. split; [ | split; [discriminate | ]].
    + intros _. split; [exact Hk | split; [now rewrite Hh | ]]. exists z. auto.
    + destruct (canFocus z) eqn:Ez; [right; exists z; auto | now left].
  - destruct (sameElement active (last focusables)) eqn:E;
      [ | simpl; repeat split; auto; discriminate].
    apply sameElement_true in E as (x & -> & Hl).
    destruct (head_last_some focusables x (or_intror Hl)) as [(y & Hy & Hin) _].
    rewrite Hy. simpl. split; [reflexivity | ]. split; [ | split; [discriminate | ]].
    + intros _. split; [exact Hk | split; [now rewrite Hl | ]]. exists y. auto.
    + destruct (canFocus y) eqn:Ey; [right; exists y; auto | now left].
Qed.

Example focus_trap_wraps :
  trapFocus (onTrapKeyDown (fun _ => true) [4; 5; 6]%nat "Tab" false (Some 6%nat))
  = Some 4%nat
  /\ trapFocus (onTrapKeyDown (fun _ => true) [4; 5; 6]%nat "Tab" true (Some 4%nat))
     = Some 6%nat
  /\ trapPrevented (onTrapKeyDown (fun _ => true) [4; 5; 6]%nat "Tab" false (Some 5%nat))
     = false
  /\ onTrapKeyDown (fun _ => true) [] "Tab" false None
     = {| trapPrevented := false; trapFocus := None; trapThrew := false |}.
Proof. repeat split. Qed.

(** A first element that cannot take the focus (a link without [href]):
    Tab on the last element is swallowed and the focus stays. *)
Example focus_trap_stuck :
  onTrapKeyDown (fun x => negb (x =? 4)%nat) [4; 5; 6]%nat "Tab" false (Some 6%nat)
  = {| trapPrevented := true; trapFocus := Some 6%nat; trapThrew := false |}.
Proof. reflexivity. Qed.

End FocusTrapFacts.
